(** * ChatOrchestrator: the tool-execution loop of the MCP chatbot

    A shallow embedding of
    [backend/src/services/chat/ChatOrchestrator.ts] together with the
    shared types it uses ([Message], [ToolCall], [MCPTool],
    [MCPToolResult]).

    - JavaScript strings are [string]; optional fields are [option].
    - The [Map<number, Partial<ToolCall>>] of the accumulator keeps its
      insertion order, so it is an association list with the [get]/[set]
      behaviour of a JavaScript [Map].
    - Arrays of messages live in a store ([gmap] from references to lists),
      because the orchestrator copies its input array and pushes onto the
      copy.
    - The async generator is a state-and-exception monad: [yield] appends
      to the list of emitted events, [throw] is a result, [await] of a
      promise that never settles is the result [Hang].
    - The model endpoint, the tool providers, the clock and the JSON
      functions of the runtime are the fields of the class [Runtime].  A
      model stream is finite, and the collaborators read the arrays they
      are handed without changing them. *)

From Stdlib Require Import ZArith NArith Lia.
From stdpp Require Import base option list gmap strings pretty.

Local Open Scope Z_scope.

(** ** Shared types *)

Inductive Role := user | assistant | system | tool.

(** [type: 'function'] has a single inhabitant. *)
Inductive ToolCallType := function.

Record ToolCallFunction := {
  fn_name : string;
  fn_arguments : string
}.

Record ToolCall := {
  tc_id : string;
  tc_type : ToolCallType;
  tc_function : ToolCallFunction
}.

Record Message := {
  role : Role;
  content : string;
  tool_calls : option (list ToolCall);
  tool_call_id : option string;
  timestamp : Z
}.

Record MCPTool (any : Type) := {
  name : string;
  description : string;
  inputSchema : any;
  serverId : string
}.
Arguments name {any} _.
Arguments description {any} _.
Arguments inputSchema {any} _.
Arguments serverId {any} _.

Record ContentItem (any : Type) := {
  item_type : string;
  item_text : option string;
  item_data : option any
}.
Arguments item_type {any} _.
Arguments item_text {any} _.
Arguments item_data {any} _.

Record MCPToolResult (any : Type) := {
  result_content : list (ContentItem any);
  isError : option bool
}.
Arguments result_content {any} _.
Arguments isError {any} _.

(** ** Types local to the orchestrator *)

Definition MAX_ITERATIONS : Z := 10.
Definition TOOL_EXECUTION_TIMEOUT : N := 30000.

Record DeltaFunction := {
  df_name : option string;
  df_arguments : option string
}.

Record ToolCallDelta := {
  d_index : Z;
  d_id : option string;
  d_type : option ToolCallType;
  d_function : option DeltaFunction
}.

(** [Partial<ToolCall>] *)
Record PartialToolCall := {
  p_id : option string;
  p_type : option ToolCallType;
  p_function : option ToolCallFunction
}.

Record AccumulatedResponse := {
  assistantMessage : Message;
  toolCalls : list ToolCall;
  finishReason : string
}.

(** The chunks of [LLMService.chatStream].  The field [tool_call] holds one
    delta or an array of deltas. *)
Inductive ChunkType := type_content | type_tool_call | type_done | type_error.

Inductive ToolCallField :=
  | OneDelta (delta : ToolCallDelta)
  | DeltaArray (deltas : list ToolCallDelta).

Record StreamChunk := {
  chunk_type : ChunkType;
  chunk_content : option string;
  chunk_tool_call : option ToolCallField;
  chunk_error : option string
}.

(** What [for await (const chunk of stream)] sees of a stream that comes to
    an end: finitely many chunks, after which the stream is done or throws
    an [Error] with a message.  A stream that stalls or goes on for ever is
    not represented; [for await] has no bound of its own, so what is proved
    of a run or of a turn is proved of those whose streams come to an
    end. *)
Record LLMStream := {
  chunks : list StreamChunk;
  failure : option string
}.

(** The events the generator yields. *)
Inductive Event :=
  | EvContent (text : string)
  | EvToolExecutionStart (toolName toolCallId : string)
  | EvToolExecutionResult (toolName toolCallId : string) (isErr : bool)
  | EvError (error : string)
  | EvDone.

(** ** JavaScript helpers *)

(** Truthiness of an optional string: present and not empty. *)
Definition truthy (o : option string) : option string :=
  match o with
  | Some s => if String.eqb s "" then None else Some s
  | None => None
  end.

(** [Map<number, V>]: [get], [set] and [values] in insertion order. *)
Fixpoint Map_get {V} (m : list (Z * V)) (k : Z) : option V :=
  match m with
  | [] => None
  | (k', v) :: m' => if Z.eqb k' k then Some v else Map_get m' k
  end.

Fixpoint Map_set {V} (m : list (Z * V)) (k : Z) (v : V) : list (Z * V) :=
  match m with
  | [] => [(k, v)]
  | (k', v') :: m' =>
      if Z.eqb k' k then (k, v) :: m' else (k', v') :: Map_set m' k v
  end.

Definition Map_values {V} (m : list (Z * V)) : list V := map snd m.

(** Promises, with the time at which they settle (milliseconds after the
    call).  [Pending] never settles. *)
Inductive Settled (A : Type) :=
  | Fulfilled (value : A)
  | Rejected (message : string).
Arguments Fulfilled {A} _.
Arguments Rejected {A} _.

Inductive Promise (A : Type) :=
  | Settles (after_ms : N) (outcome : Settled A)
  | Pending.
Arguments Settles {A} _ _.
Arguments Pending {A}.

(** [Promise.race([p, q])] where [q] was created before [p]: the promise
    that settles first decides.  Of two promises that settle at the same
    instant the one that was scheduled first settles first; the one race
    of this program, in [executeToolCallWithTimeout], sets the timer of
    [q] before it calls the provider for [p], so there the timer wins. *)
Definition Promise_race {A} (p q : Promise A) : Promise A :=
  match p, q with
  | Pending, _ => q
  | Settles _ _, Pending => p
  | Settles t1 _, Settles t2 _ => if (t1 <? t2)%N then p else q
  end.

(** ** The delta accumulator of [accumulateStreamingResponse] *)

Definition emptyFunction : ToolCallFunction :=
  {| fn_name := ""; fn_arguments := "" |}.

(** The object [{}] *)
Definition emptyPartial : PartialToolCall :=
  {| p_id := None; p_type := None; p_function := None |}.

(** "Merge delta into existing": the four [if]s of the loop body. *)
Definition mergeDelta (existing : PartialToolCall) (delta : ToolCallDelta)
  : PartialToolCall :=
  let existing :=
    match truthy (d_id delta) with
    | Some id =>
        {| p_id := Some id; p_type := p_type existing;
           p_function := p_function existing |}
    | None => existing
    end in
  let existing :=
    match d_type delta with
    | Some ty =>
        {| p_id := p_id existing; p_type := Some ty;
           p_function := p_function existing |}
    | None => existing
    end in
  let existing :=
    match truthy (d_function delta ≫= df_name) with
    | Some name =>
        let f := default emptyFunction (p_function existing) in
        {| p_id := p_id existing; p_type := p_type existing;
           p_function :=
             Some {| fn_name := name; fn_arguments := fn_arguments f |} |}
    | None => existing
    end in
  let existing :=
    match truthy (d_function delta ≫= df_arguments) with
    | Some args =>
        let f := default emptyFunction (p_function existing) in
        {| p_id := p_id existing; p_type := p_type existing;
           p_function :=
             Some {| fn_name := fn_name f;
                     fn_arguments := fn_arguments f +:+ args |} |}
    | None => existing
    end in
  existing.

(** One pass of [for (const delta of deltas)]. *)
Definition applyDelta (toolCallsBuffer : list (Z * PartialToolCall))
    (delta : ToolCallDelta) : list (Z * PartialToolCall) :=
  let existing :=
    default emptyPartial (Map_get toolCallsBuffer (d_index delta)) in
  Map_set toolCallsBuffer (d_index delta) (mergeDelta existing delta).

Definition accumulateDeltas (deltas : list ToolCallDelta)
    (toolCallsBuffer : list (Z * PartialToolCall))
  : list (Z * PartialToolCall) :=
  fold_left applyDelta deltas toolCallsBuffer.

(** [Array.isArray(chunk.tool_call) ? chunk.tool_call : [chunk.tool_call]] *)
Definition deltasOf (f : ToolCallField) : list ToolCallDelta :=
  match f with
  | OneDelta delta => [delta]
  | DeltaArray deltas => deltas
  end.

(** [tc => tc.id && tc.function?.name] *)
Definition isComplete (tc : PartialToolCall) : bool :=
  match truthy (p_id tc), truthy (fn_name <$> p_function tc) with
  | Some _, Some _ => true
  | _, _ => false
  end.

(** The object built by [.map(tc => ...)]; the non-null assertions are
    only evaluated on entries that passed the filter. *)
Definition toToolCall (tc : PartialToolCall) : ToolCall :=
  {| tc_id := default "" (p_id tc);
     tc_type := function;
     tc_function :=
       {| fn_name := default "" (fn_name <$> p_function tc);
          fn_arguments :=
            default "{}" (truthy (fn_arguments <$> p_function tc)) |} |}.

(** "Convert accumulated tool calls to array" *)
Definition finalizeToolCalls (toolCallsBuffer : list (Z * PartialToolCall))
  : list ToolCall :=
  map toToolCall (List.filter isComplete (Map_values toolCallsBuffer)).

(** The three local variables of [accumulateStreamingResponse]. *)
Record Buffers := {
  contentBuffer : string;
  toolCallsBuffer : list (Z * PartialToolCall);
  streamFinishReason : string
}.

Definition initialBuffers : Buffers :=
  {| contentBuffer := ""; toolCallsBuffer := []; streamFinishReason := "stop" |}.

(** ** The runtime the orchestrator talks to *)

Definition loc := positive.

(** [LLMService], [MCPService], the clock and the JSON functions are
    collaborators of the orchestrator: their answers are fields of the
    class, and the properties below hold for every instance. *)
Class Runtime := {
  (** values of type [any]: parsed argument payloads, structured results *)
  any : Type;
  (** the state of everything outside the orchestrator *)
  World : Type;
  any_truthy : any -> bool;
  (** [JSON.parse]: the value, or the message of the error it throws *)
  JSON_parse : string -> any + string;
  (** [JSON.stringify(_, null, 2)] *)
  JSON_stringify : any -> string;
  Date_now : World -> Z * World;
  (** [LLMService.chatStream(messages, tools)] *)
  chatStream : World -> list Message -> list (MCPTool any) -> LLMStream * World;
  (** [MCPService.executeTool(serverId, toolName, args)] *)
  executeTool :
    World -> string -> string -> any -> Promise (MCPToolResult any) * World
}.

(** What happened between the orchestrator and its collaborators, in order
    (not visible to the caller; kept for stating properties). *)
Inductive Interaction `{Runtime} :=
  | CalledChatStream (messages : list Message) (tools : list (MCPTool any))
      (stream : LLMStream)
  | Dispatched (toolCall : ToolCall)
  | CalledExecuteTool (server toolName : string) (args : any)
      (p : Promise (MCPToolResult any)).

Record St `{Runtime} := {
  world : World;
  heap : gmap loc (list Message);
  emitted : list Event;
  trace : list Interaction
}.

Inductive Res (A : Type) :=
  | Ok (a : A)
  | Throw (message : string)
  | Hang
  | OutOfFuel.
Arguments Ok {A} _.
Arguments Throw {A} _.
Arguments Hang {A}.
Arguments OutOfFuel {A}.

Definition M `{Runtime} (A : Type) : Type := St -> Res A * St.

#[global] Instance M_ret `{Runtime} : MRet M := fun A a s => (Ok a, s).

#[global] Instance M_bind `{Runtime} : MBind M := fun A B f m s =>
  match m s with
  | (Ok a, s') => f a s'
  | (Throw e, s') => (Throw e, s')
  | (Hang, s') => (Hang, s')
  | (OutOfFuel, s') => (OutOfFuel, s')
  end.

(** ** The generator as a monad *)

Section Orchestrator.
Context `{Runtime}.

Definition throw {A} (message : string) : M A := fun s => (Throw message, s).

Definition outOfFuel {A} : M A := fun s => (OutOfFuel, s).

(** [try { body } catch (error) { handler(error.message) }]; what the body
    did before it threw stays done. *)
Definition try_catch {A} (body : M A) (handler : string -> M A) : M A :=
  fun s =>
    match body s with
    | (Throw message, s') => handler message s'
    | r => r
    end.

Definition yield (e : Event) : M unit := fun s =>
  (Ok tt,
   {| world := world s; heap := heap s; emitted := emitted s ++ [e];
      trace := trace s |}).

Definition record (i : Interaction) : M unit := fun s =>
  (Ok tt,
   {| world := world s; heap := heap s; emitted := emitted s;
      trace := trace s ++ [i] |}).

(** [await p] *)
Definition await {A} (p : Promise A) : M A := fun s =>
  match p with
  | Settles _ (Fulfilled value) => (Ok value, s)
  | Settles _ (Rejected message) => (Throw message, s)
  | Pending => (Hang, s)
  end.

(** Calling a collaborator: the world answers and moves on. *)
Definition ask {A} (f : World -> A * World) : M A := fun s =>
  let (a, w) := f (world s) in
  (Ok a,
   {| world := w; heap := heap s; emitted := emitted s; trace := trace s |}).

(** The elements of the array at [array]. *)
Definition elements (array : loc) : M (list Message) := fun s =>
  (Ok (default [] (heap s !! array)), s).

(** [[...array]]: a new array with the same elements. *)
Definition spread (array : loc) : M loc := fun s =>
  let copy := fresh (dom (heap s)) in
  (Ok copy,
   {| world := world s;
      heap := <[copy := default [] (heap s !! array)]> (heap s);
      emitted := emitted s; trace := trace s |}).

(** [array.push(message)] *)
Definition push (array : loc) (message : Message) : M unit := fun s =>
  (Ok tt,
   {| world := world s;
      heap :=
        <[array := (default [] (heap s !! array) ++ [message])%list]> (heap s);
      emitted := emitted s; trace := trace s |}).

(** [for (const x of xs) body(x)] *)
Fixpoint for_of {A} (xs : list A) (body : A -> M unit) : M unit :=
  match xs with
  | [] => mret tt
  | x :: xs' => body x;; for_of xs' body
  end.

(** ** [accumulateStreamingResponse] *)

(** The body of [for await (const chunk of stream)]. *)
Definition onChunk (b : Buffers) (chunk : StreamChunk) : M Buffers :=
  b ← match chunk_type chunk, truthy (chunk_content chunk) with
      | type_content, Some text =>
          yield (EvContent text);;
          mret {| contentBuffer := contentBuffer b +:+ text;
                  toolCallsBuffer := toolCallsBuffer b;
                  streamFinishReason := streamFinishReason b |}
      | _, _ => mret b
      end;
  match chunk_type chunk, chunk_tool_call chunk with
  | type_tool_call, Some tool_call =>
      mret {| contentBuffer := contentBuffer b;
              toolCallsBuffer :=
                accumulateDeltas (deltasOf tool_call) (toolCallsBuffer b);
              streamFinishReason := "tool_calls" |}
  | _, _ => mret b
  end.

Fixpoint for_await (chunks : list StreamChunk) (b : Buffers) : M Buffers :=
  match chunks with
  | [] => mret b
  | chunk :: rest => b ← onChunk b chunk; for_await rest b
  end.

Definition accumulateStreamingResponse (messages : loc)
    (tools : list (MCPTool any)) : M AccumulatedResponse :=
  history ← elements messages;
  stream ← ask (fun w => chatStream w history tools);
  record (CalledChatStream history tools stream);;
  b ← for_await (chunks stream) initialBuffers;
  match failure stream with
  | Some message => throw message
  | None => mret tt
  end;;
  let toolCalls := finalizeToolCalls (toolCallsBuffer b) in
  now ← ask Date_now;
  mret {| assistantMessage :=
            {| role := assistant;
               content := contentBuffer b;
               tool_calls :=
                 if (0 <? length toolCalls)%nat then Some toolCalls else None;
               tool_call_id := None;
               timestamp := now |};
          toolCalls := toolCalls;
          finishReason := streamFinishReason b |}.

(** ** Tool execution *)

(** An async function: what it throws rejects the promise it returns. *)
Definition executeToolCall (toolCall : ToolCall)
    (availableTools : list (MCPTool any)) : M (Promise (MCPToolResult any)) :=
  let toolName := fn_name (tc_function toolCall) in
  match List.find (fun t => String.eqb (name t) toolName) availableTools with
  | None =>
      mret (Settles 0 (Rejected ("Tool '" +:+ toolName +:+ "' not found")))
  | Some found =>
      match JSON_parse (fn_arguments (tc_function toolCall)) with
      | inr message =>
          mret (Settles 0 (Rejected ("Invalid tool arguments: " +:+ message)))
      | inl args =>
          p ← ask (fun w => executeTool w (serverId found) toolName args);
          record (CalledExecuteTool (serverId found) toolName args p);;
          mret p
      end
  end.

Definition timeoutPromise : Promise (MCPToolResult any) :=
  Settles TOOL_EXECUTION_TIMEOUT
    (Rejected ("Tool execution timeout after "
               +:+ pretty TOOL_EXECUTION_TIMEOUT +:+ "ms")).

Definition executeToolCallWithTimeout (toolCall : ToolCall)
    (availableTools : list (MCPTool any)) : M (Promise (MCPToolResult any)) :=
  record (Dispatched toolCall);;
  p ← executeToolCall toolCall availableTools;
  mret (Promise_race p timeoutPromise).

Definition blankLine : string :=
  String (Ascii.ascii_of_nat 10) (String (Ascii.ascii_of_nat 10) EmptyString).

Definition formatToolResult (result : MCPToolResult any) : string :=
  String.concat blankLine
    (List.filter (fun s => (0 <? String.length s)%nat)
       (map (fun item =>
               match String.eqb (item_type item) "text",
                     truthy (item_text item) with
               | true, Some text => text
               | _, _ =>
                   match item_data item with
                   | Some data =>
                       if any_truthy data then JSON_stringify data else ""
                   | None => ""
                   end
               end)
          (result_content result))).

(** ** [chatWithTools] *)

(** The body of [for (const toolCall of toolCalls)] ("Step 3: Execute each
    tool"). *)
Definition executeEach (conversationHistory : loc)
    (tools : list (MCPTool any)) (toolCall : ToolCall) : M unit :=
  let toolName := fn_name (tc_function toolCall) in
  yield (EvToolExecutionStart toolName (tc_id toolCall));;
  try_catch
    (p ← executeToolCallWithTimeout toolCall tools;
     result ← await p;
     now ← ask Date_now;
     push conversationHistory
       {| role := tool;
          content := formatToolResult result;
          tool_calls := None;
          tool_call_id := Some (tc_id toolCall);
          timestamp := now |};;
     yield (EvToolExecutionResult toolName (tc_id toolCall)
              (default false (isError result))))
    (fun message =>
       now ← ask Date_now;
       push conversationHistory
         {| role := tool;
            content := "Error executing " +:+ toolName +:+ ": " +:+ message;
            tool_calls := None;
            tool_call_id := Some (tc_id toolCall);
            timestamp := now |};;
       yield (EvToolExecutionResult toolName (tc_id toolCall) true)).

(** The body of the outer [try]: one model turn and its tool calls.  The
    result is the new value of [continueLoop]. *)
Definition iterate (conversationHistory : loc) (tools : list (MCPTool any))
  : M bool :=
  r ← accumulateStreamingResponse conversationHistory tools;
  if String.eqb (finishReason r) "tool_calls"
     && (0 <? length (toolCalls r))%nat
  then
    push conversationHistory (assistantMessage r);;
    for_of (toolCalls r) (executeEach conversationHistory tools);;
    mret true
  else
    push conversationHistory (assistantMessage r);;
    mret false.

(** How one pass of the [while] body ends: by [break], or at the end of the
    body with a value for [continueLoop]. *)
Inductive Completion := Break | Normal (continueLoop : bool).

(** [while (continueLoop && iteration < MAX_ITERATIONS) { ... }].  The
    result is the pair of [continueLoop] and [iteration] at loop exit. *)
Fixpoint while_loop (fuel : nat) (conversationHistory : loc)
    (tools : list (MCPTool any)) (continueLoop : bool) (iteration : Z)
  : M (bool * Z) :=
  if continueLoop && (iteration <? MAX_ITERATIONS) then
    match fuel with
    | O => outOfFuel
    | S fuel' =>
        let iteration := iteration + 1 in
        c ← try_catch
              (continueLoop ← iterate conversationHistory tools;
               mret (Normal continueLoop))
              (fun message => yield (EvError message);; mret Break);
        match c with
        | Break => mret (continueLoop, iteration)
        | Normal continueLoop =>
            while_loop fuel' conversationHistory tools continueLoop iteration
        end
    end
  else mret (continueLoop, iteration).

Definition maxIterationsMessage : string :=
  "Maximum tool execution iterations reached. Stopping for safety.".

Definition chatWithTools (messages : loc) (tools : list (MCPTool any))
  : M unit :=
  conversationHistory ← spread messages;
  '(_, iteration) ← while_loop (Z.to_nat MAX_ITERATIONS) conversationHistory
                      tools true 0;
  (if MAX_ITERATIONS <=? iteration
   then yield (EvError maxIterationsMessage)
   else mret tt);;
  yield EvDone.

(** A run from a store holding the caller's array at [messages]. *)
Definition initial (w : World) (h : gmap loc (list Message)) : St :=
  {| world := w; heap := h; emitted := []; trace := [] |}.

Definition run (w : World) (h : gmap loc (list Message)) (messages : loc)
    (tools : list (MCPTool any)) : Res unit * St :=
  chatWithTools messages tools (initial w h).

End Orchestrator.

(** ** Observations used to state the properties *)

(** A tool-call event: a chunk of type [tool_call] whose [tool_call] field
    is present. *)
Definition toolCallEvent (chunk : StreamChunk) : option (list ToolCallDelta) :=
  match chunk_type chunk, chunk_tool_call chunk with
  | type_tool_call, Some tool_call => Some (deltasOf tool_call)
  | _, _ => None
  end.

(** A text event: a chunk of type [content] with a non-empty text. *)
Definition contentEvent (chunk : StreamChunk) : option string :=
  match chunk_type chunk with
  | type_content => truthy (chunk_content chunk)
  | _ => None
  end.

Definition toolCallObserved (chunks : list StreamChunk) : bool :=
  existsb (fun chunk => bool_decide (is_Some (toolCallEvent chunk))) chunks.

(** All fragments of a stream, in the order in which they arrive. *)
Definition streamDeltas (chunks : list StreamChunk) : list ToolCallDelta :=
  flat_map (fun chunk => default [] (toolCallEvent chunk)) chunks.

Definition streamTexts (chunks : list StreamChunk) : list string :=
  omap contentEvent chunks.

(** The completed tool calls of a turn. *)
Definition completedCalls (stream : LLMStream) : list ToolCall :=
  finalizeToolCalls (accumulateDeltas (streamDeltas (chunks stream)) []).

(** The fragments of one index, in arrival order. *)
Definition fragmentsOf (i : Z) (deltas : list ToolCallDelta)
  : list ToolCallDelta :=
  List.filter (fun delta => Z.eqb (d_index delta) i) deltas.

Definition idFragments (deltas : list ToolCallDelta) : list string :=
  omap (fun delta => truthy (d_id delta)) deltas.

Definition nameFragments (deltas : list ToolCallDelta) : list string :=
  omap (fun delta => truthy (d_function delta ≫= df_name)) deltas.

(** Every argument fragment, empty ones included. *)
Definition argumentFragments (deltas : list ToolCallDelta) : list string :=
  omap (fun delta => d_function delta ≫= df_arguments) deltas.

(** The indices that received a non-empty id and a non-empty name. *)
Definition completeIndices (deltas : list ToolCallDelta) : gset Z :=
  filter (fun i => idFragments (fragmentsOf i deltas) ≠ []
                   ∧ nameFragments (fragmentsOf i deltas) ≠ [])
    (list_to_set (map d_index deltas) : gset Z).

(** The call built from the fragments [fs] of one index: the latest
    non-empty id and name, and the concatenated argument text or the
    empty-object payload. *)
Definition builtFrom (fs : list ToolCallDelta) (c : ToolCall) : Prop :=
  last (idFragments fs) = Some (tc_id c)
  ∧ last (nameFragments fs) = Some (fn_name (tc_function c))
  ∧ fn_arguments (tc_function c) =
    (if String.eqb (String.concat "" (argumentFragments fs)) "" then "{}"
     else String.concat "" (argumentFragments fs)).

(** The distinct indices of a stream, in the order in which each is first
    seen: the insertion order of the accumulator's map. *)
Definition firstSeen (indices : list Z) : list Z :=
  fold_left (fun seen i => if bool_decide (i ∈ seen) then seen else seen ++ [i])
    indices [].

(** Two deliveries of the same fragments that differ only in how the
    fragments of distinct indices are interleaved. *)
Definition sameFragmentsPerIndex (deltas deltas' : list ToolCallDelta) : Prop :=
  ∀ i, fragmentsOf i deltas = fragmentsOf i deltas'.

Definition isErrorEvent (e : Event) : bool :=
  match e with EvError _ => true | _ => false end.

Definition isDoneEvent (e : Event) : bool :=
  match e with EvDone => true | _ => false end.

(** [text.includes(part)] *)
Fixpoint includes (text part : string) : bool :=
  String.prefix part text
  || match text with
     | EmptyString => false
     | String _ rest => includes rest part
     end.

(** A failed call is reported to the model with the tool's name and the
    message of the failure. *)
Definition errorContent (toolCall : ToolCall) (message : string) : string :=
  "Error executing " +:+ fn_name (tc_function toolCall) +:+ ": " +:+ message.

(** The two events around one tool call. *)
Definition toolEvents (toolCall : ToolCall) (isErr : bool) : list Event :=
  [EvToolExecutionStart (fn_name (tc_function toolCall)) (tc_id toolCall);
   EvToolExecutionResult (fn_name (tc_function toolCall)) (tc_id toolCall)
     isErr].

(** What a stream that ends without an error amounts to, when the
    assistant message is stamped at time [now]. *)
Definition turnOutcome (stream : LLMStream) (now : Z) : AccumulatedResponse :=
  {| assistantMessage :=
       {| role := assistant;
          content := String.concat "" (streamTexts (chunks stream));
          tool_calls :=
            match completedCalls stream with
            | [] => None
            | calls => Some calls
            end;
          tool_call_id := None;
          timestamp := now |};
     toolCalls := completedCalls stream;
     finishReason :=
       if toolCallObserved (chunks stream) then "tool_calls" else "stop" |}.

(** A tool message that answers [toolCall]. *)
Definition answers (toolCall : ToolCall) (m : Message) : Prop :=
  role m = tool ∧ tool_call_id m = Some (tc_id toolCall)
  ∧ tool_calls m = None.

Section Observations.
Context `{Runtime}.

(** The streams the model returned, one per model invocation. *)
Definition modelTurns (t : list Interaction) : list LLMStream :=
  omap (fun i => match i with
                 | CalledChatStream _ _ stream => Some stream
                 | _ => None
                 end) t.

(** The tool calls handed to [executeToolCallWithTimeout]. *)
Definition dispatches (t : list Interaction) : list ToolCall :=
  omap (fun i => match i with
                 | Dispatched toolCall => Some toolCall
                 | _ => None
                 end) t.

(** The calls that reached a provider. *)
Definition providerCalls (t : list Interaction)
  : list (string * string * any) :=
  omap (fun i => match i with
                 | CalledExecuteTool server toolName args _ =>
                     Some (server, toolName, args)
                 | _ => None
                 end) t.

(** What the loop does with a dispatch that settled with [outcome]: the
    content of the tool message it pushes and the flag of the result event
    it yields (the [try] and the [catch] of "Step 3: Execute each tool"). *)
Definition replyContent (toolCall : ToolCall)
    (outcome : Settled (MCPToolResult any)) : string :=
  match outcome with
  | Fulfilled result => formatToolResult result
  | Rejected message => errorContent toolCall message
  end.

Definition replyFlag (outcome : Settled (MCPToolResult any)) : bool :=
  match outcome with
  | Fulfilled result => default false (isError result)
  | Rejected _ => true
  end.

Definition toolMessage (toolCall : ToolCall)
    (outcome : Settled (MCPToolResult any)) (now : Z) : Message :=
  {| role := tool;
     content := replyContent toolCall outcome;
     tool_calls := None;
     tool_call_id := Some (tc_id toolCall);
     timestamp := now |}.

(** The tool-level failures of a dispatch in world [w], with the message
    of the error that [executeToolCallWithTimeout] rejects with. *)
Inductive ToolFailure (tools : list (MCPTool any)) (toolCall : ToolCall)
    (w : World) : string -> Prop :=
  | ToolNotFound :
      List.find (fun t => String.eqb (name t) (fn_name (tc_function toolCall)))
        tools = None ->
      ToolFailure tools toolCall w
        ("Tool '" +:+ fn_name (tc_function toolCall) +:+ "' not found")
  | InvalidArguments found message :
      List.find (fun t => String.eqb (name t) (fn_name (tc_function toolCall)))
        tools = Some found ->
      JSON_parse (fn_arguments (tc_function toolCall)) = inr message ->
      ToolFailure tools toolCall w ("Invalid tool arguments: " +:+ message)
  | ToolTimeout found args p :
      List.find (fun t => String.eqb (name t) (fn_name (tc_function toolCall)))
        tools = Some found ->
      JSON_parse (fn_arguments (tc_function toolCall)) = inl args ->
      fst (executeTool w (serverId found) (fn_name (tc_function toolCall)) args)
        = p ->
      (p = Pending
       ∨ ∃ t o, p = Settles t o ∧ (TOOL_EXECUTION_TIMEOUT <= t)%N) ->
      ToolFailure tools toolCall w "Tool execution timeout after 30000ms"
  | ToolExecutionFailure found args t message :
      List.find (fun t => String.eqb (name t) (fn_name (tc_function toolCall)))
        tools = Some found ->
      JSON_parse (fn_arguments (tc_function toolCall)) = inl args ->
      fst (executeTool w (serverId found) (fn_name (tc_function toolCall)) args)
        = Settles t (Rejected message) ->
      (t < TOOL_EXECUTION_TIMEOUT)%N ->
      ToolFailure tools toolCall w message.

(** [s'] is [s] after pushing [msgs] onto the array [array], yielding
    [evs] and interacting as in [calls]. *)
Definition advanced (array : loc) (s s' : St) (msgs : list Message)
    (evs : list Event) (calls : list Interaction) : Prop :=
  heap s' = <[array := default [] (heap s !! array) ++ msgs]> (heap s)
  ∧ emitted s' = emitted s ++ evs
  ∧ trace s' = trace s ++ calls.

(** One pass of the loop body, as seen from outside. *)
Record Turn := {
  turn_history : list Message;
  turn_stream : LLMStream;
  turn_messages : list Message;
  turn_events : list Event;
  turn_calls : list Interaction;
  turn_result : Res bool
}.

Definition turnInteractions (tools : list (MCPTool any)) (t : Turn)
  : list Interaction :=
  CalledChatStream (turn_history t) tools (turn_stream t) :: turn_calls t.

(** The events of a pass, with the error event of the [catch]. *)
Definition turnEvents (t : Turn) : list Event :=
  turn_events t ++
  match turn_result t with
  | Throw message => [EvError message]
  | _ => []
  end.

Inductive TurnSpec (t : Turn) : Prop :=
  | StreamFailed message :
      turn_result t = Throw message ->
      failure (turn_stream t) = Some message ->
      turn_messages t = [] ->
      turn_events t = map EvContent (streamTexts (chunks (turn_stream t))) ->
      turn_calls t = [] ->
      TurnSpec t
  | FinalAnswer now :
      turn_result t = Ok false ->
      failure (turn_stream t) = None ->
      toolCallObserved (chunks (turn_stream t)) = false
        ∨ completedCalls (turn_stream t) = [] ->
      turn_messages t = [assistantMessage (turnOutcome (turn_stream t) now)] ->
      turn_events t = map EvContent (streamTexts (chunks (turn_stream t))) ->
      turn_calls t = [] ->
      TurnSpec t
  | ToolsExecuted now (replies : list (Message * bool)) :
      turn_result t = Ok true ->
      failure (turn_stream t) = None ->
      toolCallObserved (chunks (turn_stream t)) = true ->
      completedCalls (turn_stream t) ≠ [] ->
      Forall2 (fun toolCall reply => answers toolCall (fst reply))
        (completedCalls (turn_stream t)) replies ->
      turn_messages t =
        assistantMessage (turnOutcome (turn_stream t) now)
        :: map fst replies ->
      turn_events t =
        map EvContent (streamTexts (chunks (turn_stream t)))
        ++ concat (zip_with toolEvents (completedCalls (turn_stream t))
                     (map snd replies)) ->
      modelTurns (turn_calls t) = [] ->
      dispatches (turn_calls t) = completedCalls (turn_stream t) ->
      TurnSpec t.

(** The passes of [while (continueLoop && iteration < MAX_ITERATIONS)],
    from the values of [continueLoop] and [iteration] at entry to their
    values at exit. *)
Inductive Loop : bool -> Z -> list Turn -> bool -> Z -> Prop :=
  | loop_exit continueLoop iteration :
      continueLoop && (iteration <? MAX_ITERATIONS) = false ->
      Loop continueLoop iteration [] continueLoop iteration
  | loop_break iteration t message :
      iteration < MAX_ITERATIONS ->
      turn_result t = Throw message ->
      Loop true iteration [t] true (iteration + 1)
  | loop_next iteration t continueLoop turns continueLoop' iteration' :
      iteration < MAX_ITERATIONS ->
      turn_result t = Ok continueLoop ->
      Loop continueLoop (iteration + 1) turns continueLoop' iteration' ->
      Loop true iteration (t :: turns) continueLoop' iteration'.

End Observations.

(** ** Scripted runs

    A runtime that plays back a list of model streams, one per model
    invocation, with a clock and a provider given as a function of the tool
    name.  It serves the examples and counterexamples below. *)

Module Example.

Definition noStream : LLMStream := {| chunks := []; failure := None |}.

Definition parse (text : string) : string + string :=
  if String.eqb text "{invalid"
  then inr "Expected property name or '}' in JSON at position 1"
  else inl text.

(** The world is the number of model invocations so far and the clock. *)
Definition runtime (streams : list LLMStream)
    (provider : string -> Promise (MCPToolResult string)) : Runtime :=
  {| any := string;
     World := nat * Z;
     any_truthy := fun data => negb (String.eqb data "");
     JSON_parse := parse;
     JSON_stringify := fun data => data;
     Date_now := fun w => (snd w, (fst w, snd w + 1));
     chatStream := fun w _ _ => (nth (fst w) streams noStream, (S (fst w), snd w));
     executeTool := fun w _ toolName _ => (provider toolName, w) |}.

Definition textChunk (text : string) : StreamChunk :=
  {| chunk_type := type_content; chunk_content := Some text;
     chunk_tool_call := None; chunk_error := None |}.

Definition fragment (i : Z) (id name arguments : option string)
  : ToolCallDelta :=
  {| d_index := i; d_id := id; d_type := Some function;
     d_function := Some {| df_name := name; df_arguments := arguments |} |}.

Definition callChunk (i : Z) (id name arguments : option string)
  : StreamChunk :=
  {| chunk_type := type_tool_call; chunk_content := None;
     chunk_tool_call := Some (OneDelta (fragment i id name arguments));
     chunk_error := None |}.

(** A turn that asks for [get_steps] with the given argument text. *)
Definition toolTurn (arguments : string) : LLMStream :=
  {| chunks := [callChunk 0 (Some "call_1") (Some "get_steps") (Some arguments)];
     failure := None |}.

(** A turn that answers in plain text. *)
Definition finalTurn : LLMStream :=
  {| chunks := [textChunk "You walked "; textChunk "42 steps."];
     failure := None |}.

(** A turn with a tool-call event whose fragment carries no id. *)
Definition namelessTurn : LLMStream :=
  {| chunks := [callChunk 0 None (Some "get_steps") (Some "{}")];
     failure := None |}.

Definition steps : MCPToolResult string :=
  {| result_content :=
       [{| item_type := "text"; item_text := Some "42"; item_data := None |}];
     isError := None |}.

Definition quick : string -> Promise (MCPToolResult string) :=
  fun _ => Settles 5 (Fulfilled steps).

Definition stuck : string -> Promise (MCPToolResult string) :=
  fun _ => Pending.

(** A result that reports an error of the tool. *)
Definition rateLimited : MCPToolResult string :=
  {| result_content :=
       [{| item_type := "text"; item_text := Some "Rate limit exceeded";
           item_data := None |}];
     isError := Some true |}.

Definition refusing : string -> Promise (MCPToolResult string) :=
  fun _ => Settles 5 (Fulfilled rateLimited).

Definition tools : list (MCPTool string) :=
  [{| name := "get_steps"; description := "Daily steps";
      inputSchema := "{}"; serverId := "garmin" |}].

Definition hello : Message :=
  {| role := user; content := "How many steps?"; tool_calls := None;
     tool_call_id := None; timestamp := 0 |}.

(** The caller's array is at reference 1. *)
Definition messages : loc := 1%positive.
Definition store : gmap loc (list Message) := {[ messages := [hello] ]}.
Definition start : nat * Z := (0%nat, 1000).

Definition getSteps (arguments : string) : ToolCall :=
  {| tc_id := "call_1"; tc_type := function;
     tc_function := {| fn_name := "get_steps"; fn_arguments := arguments |} |}.

(** Two fragments for index 0 that carry different ids; the second one
    carries an empty name. *)
Definition twoIds : list ToolCallDelta :=
  [fragment 0 (Some "call_a") (Some "get_steps") None;
   fragment 0 (Some "call_b") (Some "") (Some "{}")].

(** The same fragments of two indices, delivered in two interleavings. *)
Definition oneThenZero : list ToolCallDelta :=
  [fragment 1 (Some "call_b") (Some "get_sleep") None;
   fragment 0 (Some "call_a") (Some "get_steps") None].

Definition zeroThenOne : list ToolCallDelta :=
  [fragment 0 (Some "call_a") (Some "get_steps") None;
   fragment 1 (Some "call_b") (Some "get_sleep") None].

(** The scripts of the examples. *)
Definition tenToolTurns : Runtime :=
  runtime (repeat (toolTurn "{}") 10) quick.

Definition answerOnTenth : Runtime :=
  runtime (repeat (toolTurn "{}") 9 ++ [finalTurn]) quick.

Definition answerAtOnce : Runtime := runtime [finalTurn] quick.

Definition oneCall : Runtime := runtime [toolTurn "{}"; finalTurn] quick.

Definition badArguments : Runtime :=
  runtime [toolTurn "{invalid"; finalTurn] quick.

Definition nameless : Runtime := runtime [namelessTurn; finalTurn] quick.

Definition neverAnswers : Runtime := runtime [toolTurn "{}"; finalTurn] stuck.

Definition errorResult : Runtime :=
  runtime [toolTurn "{}"; finalTurn] refusing.

End Example.

(** ** Further observations *)

Definition isToolEvent (e : Event) : bool :=
  match e with
  | EvToolExecutionStart _ _ | EvToolExecutionResult _ _ _ => true
  | _ => false
  end.

(** A chunk that [accumulateStreamingResponse] acts on: a text event or a
    tool-call event. *)
Definition relevant (chunk : StreamChunk) : bool :=
  bool_decide (is_Some (contentEvent chunk))
  || bool_decide (is_Some (toolCallEvent chunk)).

(** A call with nothing missing. *)
Definition wellFormed (c : ToolCall) : Prop :=
  tc_id c ≠ "" ∧ fn_name (tc_function c) ≠ ""
  ∧ fn_arguments (tc_function c) ≠ "".

(** A stretch of transcript as the orchestrator appends it: assistant
    messages, each one that carries tool calls followed at once by the
    tool messages answering its calls, one per call and in order. *)
Inductive Answered : list Message -> Prop :=
  | answered_nil : Answered []
  | answered_plain a rest :
      role a = assistant -> tool_calls a = None ->
      Answered rest -> Answered (a :: rest)
  | answered_calls a calls replies rest :
      role a = assistant -> tool_calls a = Some calls -> calls ≠ [] ->
      Forall2 answers calls replies ->
      Answered rest -> Answered (a :: replies ++ rest).

Section MoreObservations.
Context `{Runtime}.

(** The transcripts handed to the model, one per model invocation. *)
Definition modelHistories (t : list Interaction) : list (list Message) :=
  omap (fun i => match i with
                 | CalledChatStream history _ _ => Some history
                 | _ => None
                 end) t.

(** The tool catalogs handed to the model. *)
Definition modelCatalogs (t : list Interaction) : list (list (MCPTool any)) :=
  omap (fun i => match i with
                 | CalledChatStream _ tools _ => Some tools
                 | _ => None
                 end) t.

(** Each pass starts from the transcript the previous one left. *)
Fixpoint Histories (history : list Message) (turns : list Turn) : Prop :=
  match turns with
  | [] => True
  | t :: rest =>
      turn_history t = history
      ∧ Histories (history ++ turn_messages t) rest
  end.

End MoreObservations.

Module MoreExamples.

(** A call to a tool that is not in the catalog. *)
Definition getSleep : ToolCall :=
  {| tc_id := "call_2"; tc_type := function;
     tc_function := {| fn_name := "get_sleep"; fn_arguments := "{invalid" |} |}.

(** A stream that breaks after its first text chunk. *)
Definition brokenTurn : LLMStream :=
  {| chunks := [Example.textChunk "Let me "];
     failure := Some "Cannot reach LLM endpoint" |}.

Definition broken : Runtime :=
  Example.runtime [Example.toolTurn "{}"; brokenTurn] Example.quick.

(** A chunk of type [error]. *)
Definition errorChunk : StreamChunk :=
  {| chunk_type := type_error; chunk_content := None;
     chunk_tool_call := None; chunk_error := Some "upstream failure" |}.

Definition twoTexts : MCPToolResult string :=
  {| result_content :=
       [{| item_type := "text"; item_text := Some "Steps: 42";
           item_data := None |};
        {| item_type := "image"; item_text := None; item_data := None |};
        {| item_type := "resource"; item_text := None;
           item_data := Some "{ distance: 3 }" |}];
     isError := Some true |}.

End MoreExamples.

(** * Proofs *)

(** ** The insertion-ordered map *)

Lemma Map_get_set_eq {V} (m : list (Z * V)) k v :
  Map_get (Map_set m k v) k = Some v.
Proof.
  induction m as [|[k' v'] m IH]; simpl.
  - by rewrite Z.eqb_refl.
  - destruct (Z.eqb k' k) eqn:E; simpl.
    + by rewrite Z.eqb_refl.
    + by rewrite E.
Qed.

Lemma Map_get_set_ne {V} (m : list (Z * V)) k k' v :
  k ≠ k' -> Map_get (Map_set m k v) k' = Map_get m k'.
Proof.
  intros Hne. induction m as [|[k0 v0] m IH]; simpl.
  - destruct (Z.eqb_spec k k'); [done|done].
  - destruct (Z.eqb_spec k0 k) as [->|Hk]; simpl.
    + destruct (Z.eqb_spec k k'); [done|done].
    + destruct (Z.eqb_spec k0 k'); [done|apply IH].
Qed.

Lemma Map_set_keys {V} (m : list (Z * V)) k v :
  map fst (Map_set m k v) =
  if bool_decide (k ∈ map fst m) then map fst m else map fst m ++ [k].
Proof.
  induction m as [|[k0 v0] m IH]; simpl.
  - done.
  - destruct (Z.eqb_spec k0 k) as [->|Hk]; simpl.
    + by rewrite bool_decide_eq_true_2 by left.
    + rewrite IH. destruct (decide (k ∈ map fst m)) as [Hin|Hin].
      * rewrite !bool_decide_eq_true_2; [done|by right|done].
      * rewrite !bool_decide_eq_false_2; [done| |done].
        rewrite not_elem_of_cons. split; [by intros ->|done].
Qed.

Lemma Map_set_NoDup {V} (m : list (Z * V)) k v :
  NoDup (map fst m) -> NoDup (map fst (Map_set m k v)).
Proof.
  intros Hm. rewrite Map_set_keys. case_bool_decide as Hin; [done|].
  apply NoDup_app. split_and!; [done| |apply NoDup_singleton].
  intros x Hx Hx'. apply list_elem_of_singleton in Hx' as ->. done.
Qed.

Lemma Map_get_Some {V} (m : list (Z * V)) k v :
  NoDup (map fst m) -> (Map_get m k = Some v ↔ (k, v) ∈ m).
Proof.
  induction m as [|[k0 v0] m IH]; simpl; intros Hnd.
  - split; [done|]. intros Hin. by apply elem_of_nil in Hin.
  - apply NoDup_cons in Hnd as [Hk0 Hnd].
    destruct (Z.eqb_spec k0 k) as [->|Hk].
    + split.
      * intros [= ->]. left.
      * intros Hin. apply elem_of_cons in Hin as [[= ->]|Hin]; [done|].
        exfalso. apply Hk0. apply list_elem_of_fmap. by exists (k, v).
    + rewrite IH by done. split.
      * intros Hin. by right.
      * intros Hin. apply elem_of_cons in Hin as [[= -> ->]|Hin]; done.
Qed.

Lemma Map_get_None {V} (m : list (Z * V)) k :
  Map_get m k = None ↔ k ∉ map fst m.
Proof.
  induction m as [|[k0 v0] m IH]; simpl.
  - split; [intros _; apply not_elem_of_nil|done].
  - rewrite not_elem_of_cons. destruct (Z.eqb_spec k0 k) as [->|Hk].
    + split; [done|by intros [? _]].
    + rewrite IH. split; [by intros ?; split; [intros ->|]|by intros [_ ?]].
Qed.

(** ** Strings *)

#[local] Arguments String.concat : simpl never.

Lemma append_cons x (a b : string) : String x a +:+ b = String x (a +:+ b).
Proof. reflexivity. Qed.

Lemma append_assoc (a b c : string) : (a +:+ b) +:+ c = a +:+ (b +:+ c).
Proof. induction a as [|x a IH]; [done|]. by rewrite !append_cons, IH. Qed.

Lemma append_empty_r (a : string) : a +:+ "" = a.
Proof. induction a as [|x a IH]; [done|]. by rewrite append_cons, IH. Qed.

Lemma joined_cons (x : string) (l : list string) :
  String.concat "" (x :: l) = x +:+ String.concat "" l.
Proof. destruct l; simpl; [by rewrite append_empty_r|done]. Qed.

Lemma joined_app (l1 l2 : list string) :
  String.concat "" (l1 ++ l2) = String.concat "" l1 +:+ String.concat "" l2.
Proof.
  induction l1 as [|x l1 IH]; [done|].
  rewrite <- app_comm_cons, !joined_cons, IH. by rewrite append_assoc.
Qed.

Lemma truthy_Some o s : truthy o = Some s -> o = Some s ∧ s ≠ "".
Proof.
  destruct o as [s'|]; simpl; [|done].
  destruct (String.eqb_spec s' ""); [done|]. by intros [= ->].
Qed.

Lemma truthy_nonempty s : s ≠ "" -> truthy (Some s) = Some s.
Proof. intros Hs. simpl. by destruct (String.eqb_spec s ""). Qed.

(** Empty argument fragments add nothing to the text. *)
Lemma concat_truthy_arguments (fs : list ToolCallDelta) :
  String.concat "" (omap (fun d => truthy (d_function d ≫= df_arguments)) fs)
  = String.concat "" (argumentFragments fs).
Proof.
  induction fs as [|d fs IH]; [done|].
  unfold argumentFragments in *. simpl.
  destruct (d_function d ≫= df_arguments) as [a|] eqn:E; simpl; [|done].
  destruct (String.eqb_spec a "") as [->|Ha].
  - rewrite joined_cons. exact IH.
  - rewrite !joined_cons. f_equal. exact IH.
Qed.

(** ** Merging the fragments of one index *)

Lemma mergeDelta_id r d :
  p_id (mergeDelta r d) =
  match truthy (d_id d) with Some i => Some i | None => p_id r end.
Proof.
  unfold mergeDelta.
  destruct (truthy (d_id d)), (d_type d),
    (truthy (d_function d ≫= df_name)),
    (truthy (d_function d ≫= df_arguments)); reflexivity.
Qed.

Lemma mergeDelta_type r d :
  p_type (mergeDelta r d) =
  match d_type d with Some ty => Some ty | None => p_type r end.
Proof.
  unfold mergeDelta.
  destruct (truthy (d_id d)), (d_type d),
    (truthy (d_function d ≫= df_name)),
    (truthy (d_function d ≫= df_arguments)); reflexivity.
Qed.

Lemma mergeDelta_function r d :
  p_function (mergeDelta r d) =
  match truthy (d_function d ≫= df_name),
        truthy (d_function d ≫= df_arguments) with
  | None, None => p_function r
  | n, a =>
      let f := default emptyFunction (p_function r) in
      Some {| fn_name := default (fn_name f) n;
              fn_arguments := fn_arguments f +:+ default "" a |}
  end.
Proof.
  unfold mergeDelta.
  destruct (truthy (d_id d)), (d_type d),
    (truthy (d_function d ≫= df_name)),
    (truthy (d_function d ≫= df_arguments)); simpl;
    rewrite ?append_empty_r; try reflexivity.
Qed.

Lemma merged_id fs r :
  p_id (fold_left mergeDelta fs r) =
  match last (idFragments fs) with Some i => Some i | None => p_id r end.
Proof.
  revert r. induction fs as [|d fs IH]; intros r; [done|].
  simpl. rewrite IH, mergeDelta_id. unfold idFragments. simpl.
  destruct (truthy (d_id d)) as [i|]; simpl; [|done].
  rewrite last_cons. by destruct (last _).
Qed.

Lemma merged_type fs r :
  p_type (fold_left mergeDelta fs r) =
  match last (omap d_type fs) with Some ty => Some ty | None => p_type r end.
Proof.
  revert r. induction fs as [|d fs IH]; intros r; [done|].
  simpl. rewrite IH, mergeDelta_type.
  destruct (d_type d) as [i|]; simpl; [|done].
  rewrite last_cons. by destruct (last _).
Qed.

Lemma merged_function_is_Some fs r :
  is_Some (p_function (fold_left mergeDelta fs r)) ↔
  is_Some (p_function r) ∨ nameFragments fs ≠ []
  ∨ omap (fun d => truthy (d_function d ≫= df_arguments)) fs ≠ [].
Proof.
  revert r. induction fs as [|d fs IH]; intros r.
  - simpl. split; [by left|]. by intros [?|[?|?]].
  - simpl. rewrite IH, mergeDelta_function. unfold nameFragments. simpl.
    destruct (truthy (d_function d ≫= df_name)),
      (truthy (d_function d ≫= df_arguments)); simpl;
      (split; intros Hyp;
       first [ left; by eexists | right; left; done | right; right; done
             | exact Hyp ]).
Qed.

Lemma merged_function_name fs r :
  fn_name (default emptyFunction (p_function (fold_left mergeDelta fs r))) =
  default (fn_name (default emptyFunction (p_function r)))
    (last (nameFragments fs)).
Proof.
  revert r. induction fs as [|d fs IH]; intros r; [done|].
  simpl. rewrite IH, mergeDelta_function. unfold nameFragments. simpl.
  destruct (truthy (d_function d ≫= df_name)),
    (truthy (d_function d ≫= df_arguments)); simpl;
    rewrite ?last_cons; by destruct (last _).
Qed.

Lemma merged_function_arguments fs r :
  fn_arguments (default emptyFunction (p_function (fold_left mergeDelta fs r)))
  = fn_arguments (default emptyFunction (p_function r))
    +:+ String.concat "" (argumentFragments fs).
Proof.
  rewrite <- concat_truthy_arguments.
  revert r. induction fs as [|d fs IH]; intros r.
  - simpl. by rewrite append_empty_r.
  - simpl. rewrite IH, mergeDelta_function.
    destruct (truthy (d_function d ≫= df_name)),
      (truthy (d_function d ≫= df_arguments)); simpl;
      rewrite ?joined_cons, ?append_assoc, ?append_empty_r; done.
Qed.

(** ** The accumulated buffer *)

Lemma Map_get_applyDelta buf d i :
  Map_get (applyDelta buf d) i =
  if Z.eqb (d_index d) i
  then Some (mergeDelta (default emptyPartial (Map_get buf i)) d)
  else Map_get buf i.
Proof.
  unfold applyDelta. destruct (Z.eqb_spec (d_index d) i) as [<-|Hne].
  - apply Map_get_set_eq.
  - by apply Map_get_set_ne.
Qed.

Lemma Map_get_accumulateDeltas l buf i :
  Map_get (accumulateDeltas l buf) i =
  match fragmentsOf i l with
  | [] => Map_get buf i
  | fs => Some (fold_left mergeDelta fs (default emptyPartial (Map_get buf i)))
  end.
Proof.
  revert buf. induction l as [|d l IH]; intros buf; [done|].
  unfold accumulateDeltas in *. simpl. rewrite IH, Map_get_applyDelta.
  unfold fragmentsOf. simpl.
  destruct (Z.eqb (d_index d) i); simpl; [|done].
  by destruct (List.filter _ l).
Qed.

Lemma accumulateDeltas_NoDup l buf :
  NoDup (map fst buf) -> NoDup (map fst (accumulateDeltas l buf)).
Proof.
  revert buf. induction l as [|d l IH]; intros buf Hnd; [done|].
  apply IH. by apply Map_set_NoDup.
Qed.

Lemma fragmentsOf_nil i l : fragmentsOf i l = [] ↔ i ∉ map d_index l.
Proof.
  unfold fragmentsOf. induction l as [|d l IH]; simpl.
  - split; [intros _; apply not_elem_of_nil|done].
  - rewrite not_elem_of_cons. destruct (Z.eqb_spec (d_index d) i) as [->|Hne].
    + split; [done|]. by intros [? _].
    + rewrite IH. split; [by intros ?; split|by intros [_ ?]].
Qed.

Lemma accumulateDeltas_keys l i :
  i ∈ map fst (accumulateDeltas l []) ↔ i ∈ map d_index l.
Proof.
  destruct (decide (i ∈ map fst (accumulateDeltas l []))) as [Hin|Hin].
  - split; [intros _|done].
    destruct (decide (i ∈ map d_index l)) as [|Hni]; [done|].
    apply fragmentsOf_nil in Hni. apply Map_get_None in Hin; [done|].
    by rewrite Map_get_accumulateDeltas, Hni.
  - split; [done|]. intros Hl. exfalso.
    apply Map_get_None in Hin. rewrite Map_get_accumulateDeltas in Hin.
    destruct (fragmentsOf i l) eqn:E; [|done].
    by apply fragmentsOf_nil in E.
Qed.

(** The record accumulated for an index that received fragments. *)
Lemma accumulated_record l i r :
  Map_get (accumulateDeltas l []) i = Some r ->
  fragmentsOf i l ≠ [] ∧ r = fold_left mergeDelta (fragmentsOf i l) emptyPartial.
Proof.
  rewrite Map_get_accumulateDeltas. simpl.
  destruct (fragmentsOf i l); [done|]. by intros [= <-].
Qed.

Lemma isComplete_iff r :
  isComplete r = true ↔
  is_Some (truthy (p_id r)) ∧ is_Some (truthy (fn_name <$> p_function r)).
Proof.
  unfold isComplete.
  destruct (truthy (p_id r)), (truthy (fn_name <$> p_function r));
    split; try done; try (intros [[? ?] [? ?]]; done).
Qed.

Lemma idFragments_nonempty fs : Forall (fun s => s ≠ "") (idFragments fs).
Proof.
  unfold idFragments. induction fs as [|d fs IH]; simpl; [constructor|].
  destruct (truthy (d_id d)) eqn:E; simpl; [|done].
  constructor; [|done]. by apply truthy_Some in E as [_ ?].
Qed.

Lemma nameFragments_nonempty fs : Forall (fun s => s ≠ "") (nameFragments fs).
Proof.
  unfold nameFragments. induction fs as [|d fs IH]; simpl; [constructor|].
  destruct (truthy (d_function d ≫= df_name)) eqn:E; simpl; [|done].
  constructor; [|done]. by apply truthy_Some in E as [_ ?].
Qed.

Lemma last_Forall {A} (P : A -> Prop) (l : list A) x :
  Forall P l -> last l = Some x -> P x.
Proof.
  intros Hl Hx. apply last_Some in Hx as [l' ->].
  apply Forall_app in Hl as [_ Hl]. by inversion_clear Hl.
Qed.

(** An accumulated record passes the filter exactly when its index received
    a non-empty id and a non-empty name. *)
Lemma isComplete_merged fs :
  isComplete (fold_left mergeDelta fs emptyPartial) = true ↔
  idFragments fs ≠ [] ∧ nameFragments fs ≠ [].
Proof.
  rewrite isComplete_iff, merged_id. simpl.
  assert (Hid : is_Some (truthy match last (idFragments fs) with
                                 | Some i => Some i | None => None end)
                ↔ idFragments fs ≠ []).
  { destruct (last (idFragments fs)) as [i|] eqn:E.
    - rewrite truthy_nonempty
        by (eapply (last_Forall (fun s => s ≠ "")), E; apply idFragments_nonempty).
      split; [intros _ Hnil; by rewrite Hnil in E|by eexists].
    - apply last_None in E. simpl. split; [by intros [? ?]|done]. }
  rewrite Hid. clear Hid.
  assert (Hn : is_Some (truthy (fn_name <$>
                 p_function (fold_left mergeDelta fs emptyPartial)))
               ↔ nameFragments fs ≠ []).
  { pose proof (merged_function_name fs emptyPartial) as Hname.
    pose proof (merged_function_is_Some fs emptyPartial) as Hsome.
    simpl in Hname.
    destruct (p_function (fold_left mergeDelta fs emptyPartial)) as [f|];
      simpl in *.
    - destruct (last (nameFragments fs)) as [n|] eqn:E; simpl in Hname.
      + assert (n ≠ "") as Hn
          by (eapply (last_Forall (fun s => s ≠ "")), E;
              apply nameFragments_nonempty).
        rewrite Hname. destruct (String.eqb_spec n ""); [done|].
        split; [intros _ Hnil; by rewrite Hnil in E|by eexists].
      + apply last_None in E. rewrite Hname. simpl.
        split; [by intros [? ?]|done].
    - split; [by intros [? ?]|]. intros Hne. exfalso.
      assert (is_Some (@None ToolCallFunction)) as [? ?]; [|done].
      apply Hsome. right. by left. }
  by rewrite Hn.
Qed.

(** ** Finalization *)

Lemma filter_values_keys {V} (f : V -> bool) (g : Z -> bool)
    (m : list (Z * V)) :
  (∀ k v, (k, v) ∈ m -> f v = g k) ->
  length (List.filter f (Map_values m)) = length (List.filter g (map fst m)).
Proof.
  unfold Map_values. induction m as [|[k v] m IH]; intros Hfg; [done|].
  simpl. rewrite (Hfg k v) by left.
  destruct (g k); simpl; rewrite IH; try done;
    intros k' v' Hin; apply Hfg; by right.
Qed.

Lemma filter_bool_decide {A} (P : A -> Prop) `{!∀ x, Decision (P x)}
    (l : list A) :
  List.filter (fun x => bool_decide (P x)) l = filter P l.
Proof.
  induction l as [|x l IH]; [done|]. simpl. rewrite filter_cons.
  destruct (decide (P x)) as [HP|HP].
  - rewrite bool_decide_eq_true_2 by done. by rewrite IH.
  - rewrite bool_decide_eq_false_2 by done. by rewrite IH.
Qed.

Lemma size_filter_list_to_set (P : Z -> Prop) `{!∀ x, Decision (P x)}
    (l : list Z) :
  NoDup l -> size (filter P (list_to_set l : gset Z)) = length (filter P l).
Proof.
  intros Hnd.
  assert (filter P (list_to_set l : gset Z) = list_to_set (filter P l)) as ->.
  { apply set_eq. intros x.
    rewrite elem_of_filter, !elem_of_list_to_set, list_elem_of_filter. done. }
  apply size_list_to_set. by apply NoDup_filter.
Qed.

Lemma filter_Permutation_bool {A} (f : A -> bool) (l k : list A) :
  l ≡ₚ k -> List.filter f l ≡ₚ List.filter f k.
Proof.
  induction 1 as [|x l k _ IH|x y l|l k j _ IH1 _ IH2]; simpl.
  - done.
  - destruct (f x); [by constructor|done].
  - destruct (f x), (f y); try done. apply perm_swap.
  - by etrans.
Qed.

Lemma buffer_entry l k v :
  (k, v) ∈ accumulateDeltas l [] ->
  fragmentsOf k l ≠ [] ∧ v = fold_left mergeDelta (fragmentsOf k l) emptyPartial.
Proof.
  intros Hin. apply accumulated_record.
  apply Map_get_Some; [|done]. apply accumulateDeltas_NoDup. constructor.
Qed.

Lemma finalized_length l :
  length (finalizeToolCalls (accumulateDeltas l [])) = size (completeIndices l).
Proof.
  unfold finalizeToolCalls, completeIndices. rewrite length_map.
  set (P := fun i : Z => idFragments (fragmentsOf i l) ≠ []
                         ∧ nameFragments (fragmentsOf i l) ≠ []).
  rewrite (filter_values_keys _ (fun k => bool_decide (P k))).
  - rewrite filter_bool_decide.
    assert (list_to_set (map d_index l)
            = (list_to_set (map fst (accumulateDeltas l [])) : gset Z)) as ->.
    { apply set_eq. intros x.
      by rewrite !elem_of_list_to_set, accumulateDeltas_keys. }
    symmetry. apply size_filter_list_to_set.
    apply accumulateDeltas_NoDup. constructor.
  - intros k v Hin. apply buffer_entry in Hin as [_ ->].
    destruct (decide (P k)) as [HP|HP].
    + rewrite bool_decide_eq_true_2 by done. by apply isComplete_merged.
    + rewrite bool_decide_eq_false_2 by done.
      apply not_true_is_false. by rewrite isComplete_merged.
Qed.

(** Which calls come out, index by index. *)
Lemma finalized_elem l c :
  c ∈ finalizeToolCalls (accumulateDeltas l []) ↔
  ∃ i, i ∈ completeIndices l
       ∧ c = toToolCall (fold_left mergeDelta (fragmentsOf i l) emptyPartial).
Proof.
  unfold finalizeToolCalls, Map_values, completeIndices. split.
  - intros Hc. apply list_elem_of_In, in_map_iff in Hc as (r & <- & Hr).
    apply filter_In in Hr as [Hr Hcomplete].
    apply in_map_iff in Hr as ([k v] & Hv & Hin). simpl in Hv. subst v.
    apply list_elem_of_In in Hin. pose proof Hin as Hkey.
    apply buffer_entry in Hin as [Hfs ->]. exists k. split; [|done].
    apply elem_of_filter. split; [by apply isComplete_merged|].
    apply elem_of_list_to_set, accumulateDeltas_keys.
    apply list_elem_of_fmap. by exists (k, fold_left mergeDelta (fragmentsOf k l) emptyPartial).
  - intros (i & Hi & ->). apply elem_of_filter in Hi as [HP Hi].
    apply elem_of_list_to_set, accumulateDeltas_keys in Hi.
    apply list_elem_of_fmap in Hi as ([k v] & Hk & Hin). simpl in Hk. subst k.
    pose proof Hin as Hkey. apply buffer_entry in Hin as [_ ->].
    apply list_elem_of_In, in_map, filter_In. split.
    + apply in_map_iff. eexists (_, _). split; [done|].
      by apply list_elem_of_In.
    + by apply isComplete_merged.
Qed.

(** The fields of a produced call. *)
Lemma toToolCall_merged fs :
  idFragments fs ≠ [] -> nameFragments fs ≠ [] ->
  let c := toToolCall (fold_left mergeDelta fs emptyPartial) in
  last (idFragments fs) = Some (tc_id c)
  ∧ last (nameFragments fs) = Some (fn_name (tc_function c))
  ∧ fn_arguments (tc_function c) =
    (if String.eqb (String.concat "" (argumentFragments fs)) "" then "{}"
     else String.concat "" (argumentFragments fs)).
Proof.
  intros Hid Hname. unfold toToolCall. simpl.
  pose proof (merged_function_name fs emptyPartial) as Hn.
  pose proof (merged_function_arguments fs emptyPartial) as Ha.
  pose proof (merged_function_is_Some fs emptyPartial) as [_ Hs].
  destruct Hs as [f Hf]; [right; by left|].
  rewrite merged_id, Hf in *. simpl in *.
  apply last_is_Some in Hid as [i Hi]. apply last_is_Some in Hname as [n Hn'].
  rewrite Hi, Hn' in *. simpl in *. rewrite Hn, Ha. split_and!; try done.
  by destruct (String.eqb _ "").
Qed.

Lemma buffers_Permutation l l' :
  sameFragmentsPerIndex l l' ->
  accumulateDeltas l [] ≡ₚ accumulateDeltas l' [].
Proof.
  intros Hsame.
  assert (Hnd : ∀ k, NoDup (accumulateDeltas k [])).
  { intros k. eapply (NoDup_fmap_1 fst).
    apply (accumulateDeltas_NoDup k []). constructor. }
  apply NoDup_Permutation; [apply Hnd|apply Hnd|]. intros [k v].
  rewrite <- !Map_get_Some by (apply accumulateDeltas_NoDup; constructor).
  by rewrite !Map_get_accumulateDeltas, Hsame.
Qed.

Lemma finalized_Permutation l l' :
  sameFragmentsPerIndex l l' ->
  finalizeToolCalls (accumulateDeltas l [])
  ≡ₚ finalizeToolCalls (accumulateDeltas l' []).
Proof.
  intros Hsame. unfold finalizeToolCalls, Map_values.
  apply Permutation_map, filter_Permutation_bool, Permutation_map.
  by apply buffers_Permutation.
Qed.

Lemma concat_nonempty (l : list string) :
  Forall (fun s => s ≠ "") l -> String.concat "" l = "" -> l = [].
Proof.
  destruct 1 as [|x l Hx _]; [done|]. rewrite joined_cons.
  destruct x; [done|]. by rewrite append_cons.
Qed.

Lemma arguments_empty fs :
  String.concat "" (argumentFragments fs) = "" ↔
  omap (fun d => truthy (d_function d ≫= df_arguments)) fs = [].
Proof.
  rewrite <- concat_truthy_arguments. split.
  - apply concat_nonempty. induction fs as [|d fs IH]; simpl; [constructor|].
    destruct (truthy (d_function d ≫= df_arguments)) eqn:E; simpl; [|done].
    constructor; [|done]. by apply truthy_Some in E as [_ ?].
  - by intros ->.
Qed.

(** ** The order of the finalized calls *)

Lemma accumulateDeltas_key_order l buf :
  map fst (accumulateDeltas l buf) =
  fold_left (fun seen i => if bool_decide (i ∈ seen) then seen else seen ++ [i])
    (map d_index l) (map fst buf).
Proof.
  revert buf. induction l as [|d l IH]; intros buf; [done|].
  unfold accumulateDeltas in *. simpl. rewrite IH.
  unfold applyDelta. by rewrite Map_set_keys.
Qed.

Lemma buffer_by_keys {V} (f : Z -> V) (m : list (Z * V)) :
  (∀ k v, (k, v) ∈ m -> v = f k) -> Map_values m = map f (map fst m).
Proof.
  unfold Map_values. induction m as [|[k v] m IH]; intros Hf; [done|].
  simpl. rewrite <- (Hf k v) by left. f_equal. apply IH.
  intros k' v' Hin. apply Hf. by right.
Qed.

Lemma filter_map_bool {A B} (f : A -> B) (g : B -> bool) (l : list A) :
  List.filter g (map f l) = map f (List.filter (fun x => g (f x)) l).
Proof.
  induction l as [|x l IH]; [done|]. simpl.
  destruct (g (f x)); simpl; by rewrite IH.
Qed.

(** The finalized calls are the calls of the complete indices, in the order
    in which the indices were first seen. *)
Lemma finalized_in_order l :
  Forall2 (fun i c => builtFrom (fragmentsOf i l) c)
    (filter (fun i => i ∈ completeIndices l) (firstSeen (map d_index l)))
    (finalizeToolCalls (accumulateDeltas l [])).
Proof.
  unfold finalizeToolCalls.
  rewrite (buffer_by_keys
             (fun k => fold_left mergeDelta (fragmentsOf k l) emptyPartial))
    by (intros k v Hin; by apply buffer_entry in Hin as [_ ->]).
  rewrite filter_map_bool, map_map, accumulateDeltas_key_order. simpl.
  fold (firstSeen (map d_index l)).
  assert (Hkeys : ∀ i, i ∈ firstSeen (map d_index l) -> i ∈ map d_index l).
  { intros i Hi. apply accumulateDeltas_keys.
    by rewrite accumulateDeltas_key_order. }
  induction (firstSeen (map d_index l)) as [|i keys IH]; [constructor|].
  rewrite filter_cons. simpl.
  assert (isComplete (fold_left mergeDelta (fragmentsOf i l) emptyPartial) = true
          ↔ i ∈ completeIndices l) as Hiff.
  { rewrite isComplete_merged. unfold completeIndices.
    rewrite elem_of_filter, elem_of_list_to_set. split; [|by intros [? _]].
    intros Hc. split; [done|]. apply Hkeys. left. }
  destruct (decide (i ∈ completeIndices l)) as [Hi|Hi].
  - rewrite (proj2 Hiff Hi). simpl. constructor.
    + apply elem_of_filter in Hi as [[Hid Hname] _].
      by apply toToolCall_merged.
    + apply IH. intros j Hj. apply Hkeys. by right.
  - assert (isComplete (fold_left mergeDelta (fragmentsOf i l) emptyPartial)
            = false) as ->
      by (apply not_true_is_false; intros E; by apply Hiff in E).
    apply IH. intros j Hj. apply Hkeys. by right.
Qed.

(** ** The steps of the orchestrator *)

(** Unfold the outermost bind of the computation in the goal. *)
Ltac bind_step := unfold mbind at 1; unfold M_bind at 1.

Section Steps.
Context `{Runtime}.

Lemma for_await_eq chunks b s :
  for_await chunks b s =
  (Ok {| contentBuffer :=
           contentBuffer b +:+ String.concat "" (streamTexts chunks);
         toolCallsBuffer :=
           accumulateDeltas (streamDeltas chunks) (toolCallsBuffer b);
         streamFinishReason :=
           if toolCallObserved chunks then "tool_calls"
           else streamFinishReason b |},
   {| world := world s; heap := heap s;
      emitted := emitted s ++ map EvContent (streamTexts chunks);
      trace := trace s |}).
Proof.
  revert b s. induction chunks as [|c chunks IH]; intros b s.
  - destruct b, s. simpl. by rewrite append_empty_r, app_nil_r.
  - simpl. unfold mbind, M_bind, onChunk, mbind, M_bind.
    unfold streamTexts, streamDeltas, toolCallObserved, contentEvent,
      toolCallEvent in *.
    simpl.
    destruct (chunk_type c) eqn:Ety; simpl;
      destruct (truthy (chunk_content c)) as [text|] eqn:Etext; simpl;
      destruct (chunk_tool_call c) as [f|] eqn:Ef; simpl;
      rewrite IH; simpl;
      rewrite ?joined_cons, ?append_assoc, <- ?app_assoc; try reflexivity.
    all: unfold accumulateDeltas; rewrite ?fold_left_app; try reflexivity.
    all: by destruct (existsb _ chunks).
Qed.

Lemma accumulateStreamingResponse_eq ch tools s :
  let history := default [] (heap s !! ch) in
  let stream := fst (chatStream (world s) history tools) in
  let w1 := snd (chatStream (world s) history tools) in
  let evs := emitted s ++ map EvContent (streamTexts (chunks stream)) in
  let calls := trace s ++ [CalledChatStream history tools stream] in
  accumulateStreamingResponse ch tools s =
  match failure stream with
  | Some message =>
      (Throw message,
       {| world := w1; heap := heap s; emitted := evs; trace := calls |})
  | None =>
      (Ok (turnOutcome stream (fst (Date_now w1))),
       {| world := snd (Date_now w1); heap := heap s; emitted := evs;
          trace := calls |})
  end.
Proof.
  unfold accumulateStreamingResponse, mbind, M_bind, elements, ask, record.
  simpl. destruct (chatStream _ _ _) as [stream w1]. simpl.
  rewrite for_await_eq. simpl.
  destruct (failure stream) as [message|]; simpl; [done|].
  destruct (Date_now w1) as [now w2]. simpl.
  unfold mret, M_ret, turnOutcome, completedCalls. simpl.
  by destruct (finalizeToolCalls _).
Qed.

(** ** One tool call *)

Lemma timeoutPromise_eq :
  timeoutPromise =
  Settles TOOL_EXECUTION_TIMEOUT
    (Rejected "Tool execution timeout after 30000ms").
Proof. reflexivity. Qed.

Lemma Promise_race_timeout {A} (p : Promise A) o :
  ∃ t o', Promise_race p (Settles TOOL_EXECUTION_TIMEOUT o) = Settles t o'
          ∧ (t <= TOOL_EXECUTION_TIMEOUT)%N.
Proof.
  destruct p as [t o'|]; simpl.
  - destruct (N.ltb_spec t TOOL_EXECUTION_TIMEOUT) as [Hlt|Hge].
    + eexists _, _. split; [done|lia].
    + eexists _, _. split; [done|lia].
  - eexists _, _. split; [done|lia].
Qed.

Lemma executeToolCallWithTimeout_spec toolCall tools s :
  ∃ p w' calls,
    executeToolCallWithTimeout toolCall tools s =
      (Ok (Promise_race p timeoutPromise),
       {| world := w'; heap := heap s; emitted := emitted s;
          trace := trace s ++ Dispatched toolCall :: calls |})
    ∧ modelTurns calls = [] ∧ dispatches calls = []
    ∧ (∀ message, ToolFailure tools toolCall (world s) message ->
         Promise_race p timeoutPromise
         = Settles (match p with
                    | Settles t _ => N.min t TOOL_EXECUTION_TIMEOUT
                    | Pending => TOOL_EXECUTION_TIMEOUT
                    end) (Rejected message)).
Proof.
  unfold executeToolCallWithTimeout, executeToolCall, mbind, M_bind, record,
    ask, mret, M_ret.
  simpl.
  destruct (find _ tools) as [found|] eqn:Efind; simpl.
  - destruct (JSON_parse _) as [args|message] eqn:Eparse; simpl.
    + destruct (executeTool _ _ _ _) as [p w'] eqn:Eexec. simpl.
      eexists p, w', [_]. rewrite <- app_assoc. simpl.
      split_and!; try done.
      intros message Hfail. inversion Hfail as [Hf|? ? Hf Hp|? ? ? Hf Hp He Hlate|? ? t ? Hf Hp He Hearly]; subst;
        rewrite Efind in Hf; try done; injection Hf as <-;
        rewrite Eparse in Hp; try done; injection Hp as <-;
        rewrite Eexec in *; simpl in *.
      * destruct Hlate as [->|(t & o & -> & Hlt)]; simpl; [done|].
        destruct (N.ltb_spec t TOOL_EXECUTION_TIMEOUT) as [Hle|_]; [lia|].
        rewrite N.min_r by lia. done.
      * subst p. simpl.
        destruct (N.ltb_spec t TOOL_EXECUTION_TIMEOUT) as [_|Hgt]; [|lia].
        rewrite N.min_l by lia. done.
    + eexists (Settles 0 (Rejected _)), (world s), []. simpl.
      split_and!; try done.
      intros m Hfail. inversion Hfail as [Hf|? ? Hf Hp|? ? ? Hf Hp|? ? ? ? Hf Hp]; subst;
        rewrite Efind in Hf; try done; injection Hf as <-;
        rewrite Eparse in Hp; try done. by injection Hp as <-.
  - eexists (Settles 0 (Rejected _)), (world s), []. simpl.
    split_and!; try done.
    intros m Hfail. inversion Hfail as [Hf|? ? Hf Hp|? ? ? Hf Hp|? ? ? ? Hf Hp]; subst;
      rewrite Efind in Hf; done.
Qed.

Lemma executeEach_spec ch tools toolCall s :
  ∃ s' m isErr calls,
    executeEach ch tools toolCall s = (Ok tt, s')
    ∧ advanced ch s s' [m] (toolEvents toolCall isErr)
        (Dispatched toolCall :: calls)
    ∧ answers toolCall m
    ∧ modelTurns calls = [] ∧ dispatches calls = []
    ∧ (∀ message, ToolFailure tools toolCall (world s) message ->
         content m = errorContent toolCall message ∧ isErr = true).
Proof.
  unfold executeEach, try_catch, advanced.
  bind_step. unfold yield at 1.
  bind_step.
  set (s0 := {| world := world s; heap := heap s;
                emitted := emitted s ++ [_]; trace := trace s |}).
  destruct (executeToolCallWithTimeout_spec toolCall tools s0)
    as (p & w' & calls & Hexec & Hturns & Hdisp & Hfail).
  rewrite Hexec.
  destruct (Promise_race_timeout p
              (Rejected "Tool execution timeout after 30000ms"))
    as (t & o & Hrace & _).
  rewrite timeoutPromise_eq in *. rewrite Hrace in *.
  unfold mbind, M_bind, await, ask, push, yield, mret, M_ret. simpl.
  destruct o as [result|message]; simpl.
  - destruct (Date_now w') as [now w''] eqn:Enow. simpl.
    eexists _, _, _, calls. split; [reflexivity|]. simpl.
    rewrite <- app_assoc. split_and!; try done.
    intros message Hm. specialize (Hfail message Hm). done.
  - destruct (Date_now w') as [now w''] eqn:Enow. simpl.
    eexists _, _, _, calls. split; [reflexivity|]. simpl.
    rewrite <- app_assoc. split_and!; try done.
    intros m Hm. specialize (Hfail m Hm). by injection Hfail as _ <-.
Qed.

Lemma advanced_trans ch s1 s2 s3 m1 m2 e1 e2 c1 c2 :
  advanced ch s1 s2 m1 e1 c1 -> advanced ch s2 s3 m2 e2 c2 ->
  advanced ch s1 s3 (m1 ++ m2) (e1 ++ e2) (c1 ++ c2).
Proof.
  intros (Hh1 & He1 & Ht1) (Hh2 & He2 & Ht2). unfold advanced.
  rewrite Hh2, He2, Ht2, Hh1, He1, Ht1, lookup_insert_eq, insert_insert_eq.
  simpl. by rewrite !app_assoc.
Qed.

Lemma advanced_refl ch s :
  is_Some (heap s !! ch) -> advanced ch s s [] [] [].
Proof.
  intros [h Hh]. unfold advanced. rewrite Hh, !app_nil_r. simpl.
  by rewrite insert_id.
Qed.

Lemma advanced_allocated ch s s' m e c :
  advanced ch s s' m e c -> is_Some (heap s' !! ch).
Proof. intros (-> & _). rewrite lookup_insert_eq. by eexists. Qed.

Lemma for_of_executeEach_spec ch tools toolCalls s :
  is_Some (heap s !! ch) ->
  ∃ s' (replies : list (Message * bool)) calls,
    for_of toolCalls (executeEach ch tools) s = (Ok tt, s')
    ∧ advanced ch s s' (map fst replies)
        (concat (zip_with toolEvents toolCalls (map snd replies))) calls
    ∧ Forall2 (fun toolCall reply => answers toolCall (fst reply))
        toolCalls replies
    ∧ modelTurns calls = [] ∧ dispatches calls = toolCalls.
Proof.
  revert s. induction toolCalls as [|toolCall rest IH]; intros s Halloc.
  - exists s, [], []. simpl.
    split_and!; [done|by apply advanced_refl|constructor|done|done].
  - simpl. unfold mbind, M_bind.
    destruct (executeEach_spec ch tools toolCall s)
      as (s1 & m & isErr & calls1 & Hrun & Hadv & Hans & Hturns & Hdisp & _).
    rewrite Hrun.
    destruct (IH s1) as (s2 & replies & calls2 & Hrest & Hadv2 & Hall & Ht2 & Hd2).
    { eapply advanced_allocated, Hadv. }
    rewrite Hrest. exists s2, ((m, isErr) :: replies), (Dispatched toolCall :: calls1 ++ calls2).
    split; [done|]. split_and!.
    + apply (advanced_trans _ _ _ _ _ _ _ _ _ _ Hadv Hadv2).
    + by constructor.
    + unfold modelTurns in *. simpl. by rewrite omap_app, Hturns, Ht2.
    + unfold dispatches in *. simpl. by rewrite omap_app, Hdisp, Hd2.
Qed.

(** ** One pass of the loop body *)

Lemma wantsTools_eq stream now :
  String.eqb (finishReason (turnOutcome stream now)) "tool_calls"
  && (0 <? length (toolCalls (turnOutcome stream now)))%nat
  = toolCallObserved (chunks stream)
    && bool_decide (completedCalls stream ≠ []).
Proof.
  unfold turnOutcome. simpl.
  destruct (toolCallObserved (chunks stream)); simpl; [|done].
  by destruct (completedCalls stream).
Qed.

Lemma iterate_spec ch tools s hist :
  heap s !! ch = Some hist ->
  ∃ t s',
    iterate ch tools s = (turn_result t, s')
    ∧ turn_history t = hist
    ∧ turn_stream t = fst (chatStream (world s) hist tools)
    ∧ TurnSpec t
    ∧ advanced ch s s' (turn_messages t) (turn_events t)
        (turnInteractions tools t).
Proof.
  intros Hhist. unfold iterate. bind_step.
  rewrite accumulateStreamingResponse_eq. rewrite Hhist. simpl.
  destruct (chatStream (world s) hist tools) as [stream w1] eqn:Echat. simpl.
  destruct (failure stream) as [message|] eqn:Efail.
  - eexists {| turn_history := hist; turn_stream := stream;
               turn_messages := [];
               turn_events := map EvContent (streamTexts (chunks stream));
               turn_calls := [];
               turn_result := Throw message |}, _.
    split; [reflexivity|]. split_and!; try done.
    + by eapply StreamFailed.
    + unfold advanced, turnInteractions. simpl.
      rewrite Hhist, app_nil_r. simpl. by rewrite insert_id.
  - destruct (Date_now w1) as [now w2] eqn:Enow.
    rewrite wantsTools_eq. cbn [fst snd].
    destruct (toolCallObserved (chunks stream)
              && bool_decide (completedCalls stream ≠ [])) eqn:Ewants.
    + (* tools are executed *)
      apply andb_true_iff in Ewants as [Eobs Hcalls].
      apply bool_decide_eq_true in Hcalls.
      bind_step. unfold push at 1.
      bind_step.
      match goal with
      | |- context [for_of _ _ ?st] =>
          destruct (for_of_executeEach_spec ch tools (completedCalls stream) st)
            as (s2 & replies & intr & Hrun & Hadv & Hall & Hturns & Hdisp)
      end.
      { simpl. rewrite lookup_insert_eq. by eexists. }
      change (toolCalls (turnOutcome stream now)) with (completedCalls stream).
      rewrite Hrun. unfold mret, M_ret.
      eexists {| turn_history := hist; turn_stream := stream;
                 turn_messages :=
                   assistantMessage (turnOutcome stream now) :: map fst replies;
                 turn_events :=
                   map EvContent (streamTexts (chunks stream))
                   ++ concat (zip_with toolEvents (completedCalls stream)
                                (map snd replies));
                 turn_calls := intr;
                 turn_result := Ok true |}, _.
      split; [reflexivity|]. split_and!; try done.
      * by eapply (ToolsExecuted _ now replies).
      * destruct Hadv as (Hh & He & Ht). unfold advanced, turnInteractions.
        simpl in *. rewrite Hh, He, Ht.
        rewrite lookup_insert_eq, insert_insert_eq, Hhist. simpl.
        rewrite <- !app_assoc. done.
    + (* a final answer *)
      unfold mbind, M_bind, push, mret, M_ret.
      eexists {| turn_history := hist; turn_stream := stream;
                 turn_messages := [assistantMessage (turnOutcome stream now)];
                 turn_events := map EvContent (streamTexts (chunks stream));
                 turn_calls := [];
                 turn_result := Ok false |}, _.
      split; [reflexivity|]. split_and!; try done.
      eapply (FinalAnswer _ now); simpl; try done.
      apply andb_false_iff in Ewants as [Eobs|Hcalls]; [by left|right].
      apply bool_decide_eq_false in Hcalls.
      destruct (completedCalls stream); [done|]. exfalso. by apply Hcalls.
Qed.

(** ** The loop and the run *)

Lemma TurnSpec_result t :
  TurnSpec t ->
  (∃ message, turn_result t = Throw message) ∨ (∃ c, turn_result t = Ok c).
Proof. destruct 1; eauto. Qed.

Lemma while_loop_spec ch tools fuel continueLoop iteration s :
  is_Some (heap s !! ch) ->
  MAX_ITERATIONS - iteration <= Z.of_nat fuel ->
  ∃ turns continueLoop' iteration' s',
    while_loop fuel ch tools continueLoop iteration s
      = (Ok (continueLoop', iteration'), s')
    ∧ Loop continueLoop iteration turns continueLoop' iteration'
    ∧ Forall TurnSpec turns
    ∧ advanced ch s s' (concat (map turn_messages turns))
        (concat (map turnEvents turns))
        (concat (map (turnInteractions tools) turns)).
Proof.
  revert continueLoop iteration s.
  induction fuel as [|fuel IH]; intros c it s Halloc Hfuel.
  - exists [], c, it, s. simpl.
    destruct (c && (it <? MAX_ITERATIONS)) eqn:Econd.
    { apply andb_true_iff in Econd as [_ Hlt%Z.ltb_lt]. lia. }
    split_and!; [done|by constructor|constructor|by apply advanced_refl].
  - simpl. destruct (c && (it <? MAX_ITERATIONS)) eqn:Econd.
    + apply andb_true_iff in Econd as [-> Hlt%Z.ltb_lt].
      destruct Halloc as [hist Hhist].
      destruct (iterate_spec ch tools s hist Hhist)
        as (t & s1 & Hrun & _ & _ & Hspec & Hadv).
      bind_step. unfold try_catch.
      bind_step. rewrite Hrun.
      destruct (TurnSpec_result t Hspec) as [[message Hres]|[c' Hres]];
        rewrite Hres.
      * unfold mbind, M_bind, yield, mret, M_ret. simpl.
        eexists [t], true, (it + 1), _. split; [reflexivity|].
        split_and!.
        -- by eapply loop_break.
        -- by constructor.
        -- destruct Hadv as (Hh & He & Ht). unfold advanced, turnEvents.
           simpl. rewrite Hres, !app_nil_r, Hh, He, Ht.
           by rewrite <- app_assoc.
      * unfold mret at 1. unfold M_ret at 1.
        destruct (IH c' (it + 1) s1) as (turns & c'' & it' & s2 & Hrest & Hloop & Hall & Hadv2).
        { eapply advanced_allocated, Hadv. }
        { lia. }
        rewrite Hrest. exists (t :: turns), c'', it', s2.
        split_and!; [done|by eapply loop_next|by constructor|].
        assert (Hev : turnEvents t = turn_events t).
        { unfold turnEvents. by rewrite Hres, app_nil_r. }
        simpl. rewrite Hev.
        apply (advanced_trans _ _ _ _ _ _ _ _ _ _ Hadv Hadv2).
    + exists [], c, it, s.
      split_and!; [done|by constructor|constructor|by apply advanced_refl].
Qed.

Lemma fresh_not_allocated (h : gmap loc (list Message)) :
  h !! fresh (dom h) = None.
Proof. apply not_elem_of_dom, is_fresh. Qed.

Lemma run_spec w h messages tools :
  ∃ turns continueLoop iteration s',
    run w h messages tools = (Ok tt, s')
    ∧ Loop true 0 turns continueLoop iteration
    ∧ Forall TurnSpec turns
    ∧ heap s' =
        <[fresh (dom h) := default [] (h !! messages)
                           ++ concat (map turn_messages turns)]> h
    ∧ emitted s' =
        concat (map turnEvents turns)
        ++ (if MAX_ITERATIONS <=? iteration
            then [EvError maxIterationsMessage] else [])
        ++ [EvDone]
    ∧ trace s' = concat (map (turnInteractions tools) turns).
Proof.
  unfold run, chatWithTools, initial.
  bind_step. unfold spread at 1.
  bind_step.
  match goal with
  | |- context [while_loop ?f ?ch ?t ?c ?i ?st] =>
      destruct (while_loop_spec ch t f c i st)
        as (turns & c' & it' & s1 & Hrun & Hloop & Hall & Hh & He & Ht)
  end.
  { simpl. rewrite lookup_insert_eq. by eexists. }
  { simpl. unfold MAX_ITERATIONS. lia. }
  rewrite Hrun. simpl in *.
  rewrite lookup_insert_eq, insert_insert_eq in Hh. simpl in Hh.
  exists turns, c', it'.
  destruct (MAX_ITERATIONS <=? it') eqn:Emax;
    unfold mbind, M_bind, yield, mret, M_ret; simpl;
    eexists; (split; [reflexivity|]); simpl;
    rewrite ?He, ?Ht, ?Hh, <- ?app_assoc; split_and!; done.
Qed.

(** One pass of the loop, and the loop once [continueLoop] is false. *)
Lemma while_loop_step ch tools fuel iteration s r s' :
  iteration < MAX_ITERATIONS ->
  iterate ch tools s = (r, s') ->
  while_loop (S fuel) ch tools true iteration s =
  match r with
  | Ok continueLoop => while_loop fuel ch tools continueLoop (iteration + 1) s'
  | Throw message =>
      (Ok (true, iteration + 1),
       {| world := world s'; heap := heap s';
          emitted := emitted s' ++ [EvError message]; trace := trace s' |})
  | Hang => (Hang, s')
  | OutOfFuel => (OutOfFuel, s')
  end.
Proof.
  intros Hlt Hiter. cbn [while_loop].
  apply Z.ltb_lt in Hlt. rewrite Hlt. cbn [andb].
  bind_step. unfold try_catch.
  bind_step. rewrite Hiter.
  by destruct r.
Qed.

Lemma while_loop_stop ch tools fuel iteration s :
  while_loop fuel ch tools false iteration s = (Ok (false, iteration), s).
Proof. by destruct fuel. Qed.

(** ** What the loop relation implies *)

Lemma Loop_iterations c it turns c' it' :
  Loop c it turns c' it' -> it' = it + Z.of_nat (length turns).
Proof.
  induction 1 as [| |it t c turns c' it' Hlt Hres Hloop IH]; simpl; lia.
Qed.

Lemma Loop_bounded c it turns c' it' :
  Loop c it turns c' it' -> it <= MAX_ITERATIONS -> it' <= MAX_ITERATIONS.
Proof. induction 1; lia. Qed.

Lemma Loop_stopped it turns c' it' :
  Loop false it turns c' it' -> turns = [] ∧ c' = false ∧ it' = it.
Proof. by inversion 1. Qed.

(** From [continueLoop = true] below the limit there is a first pass. *)
Lemma Loop_first it turns c' it' :
  Loop true it turns c' it' -> it < MAX_ITERATIONS ->
  ∃ t rest, turns = t :: rest
    ∧ ((∃ message, turn_result t = Throw message
                   ∧ rest = [] ∧ c' = true ∧ it' = it + 1)
       ∨ (∃ c, turn_result t = Ok c ∧ Loop c (it + 1) rest c' it')).
Proof.
  inversion 1 as [? ? Hcond| |]; subst; intros Hlt.
  - simpl in Hcond. apply Z.ltb_ge in Hcond. lia.
  - eexists _, _. split; [done|]. left. eauto.
  - eexists _, _. split; [done|]. right. eauto.
Qed.

(** When every pass executes tools, the loop runs into the limit. *)
Lemma Loop_all_tools c it turns c' it' :
  Loop c it turns c' it' -> c = true -> it <= MAX_ITERATIONS ->
  Forall (fun t => turn_result t = Ok true) turns ->
  c' = true ∧ it' = MAX_ITERATIONS.
Proof.
  induction 1 as [c it Hcond|it t m Hlt Hres
                 |it t c turns c' it' Hlt Hres Hloop IH];
    intros Hc Hle Hall; subst.
  - simpl in Hcond. apply Z.ltb_ge in Hcond. split; [done|lia].
  - apply Forall_cons in Hall as [Ht _]. by rewrite Hres in Ht.
  - apply Forall_cons in Hall as [Ht Hall]. rewrite Hres in Ht.
    injection Ht as ->. apply IH; [done|lia|done].
Qed.

Lemma modelTurns_app (a b : list Interaction) :
  modelTurns (a ++ b) = modelTurns a ++ modelTurns b.
Proof. unfold modelTurns. apply omap_app. Qed.

Lemma dispatches_app (a b : list Interaction) :
  dispatches (a ++ b) = dispatches a ++ dispatches b.
Proof. unfold dispatches. apply omap_app. Qed.

Lemma TurnSpec_modelTurns tools t :
  TurnSpec t -> modelTurns (turnInteractions tools t) = [turn_stream t].
Proof.
  unfold turnInteractions.
  destruct 1 as [? ? ? ? ? Hc|? ? ? ? ? ? Hc|? ? ? ? ? ? ? ? ? Hc ?];
    [by rewrite Hc|by rewrite Hc|].
  change ([turn_stream t]) with (turn_stream t :: []). rewrite <- Hc. done.
Qed.

Lemma TurnSpec_dispatches tools t :
  TurnSpec t ->
  dispatches (turnInteractions tools t) =
  match turn_result t with
  | Ok true => completedCalls (turn_stream t)
  | _ => []
  end.
Proof.
  unfold turnInteractions.
  destruct 1 as [? Hr ? ? ? Hc|? Hr ? ? ? ? Hc|? ? Hr ? ? ? ? ? ? ? Hc];
    rewrite Hr; [by rewrite Hc|by rewrite Hc|].
  rewrite <- Hc. done.
Qed.

Lemma turns_modelTurns tools turns :
  Forall TurnSpec turns ->
  modelTurns (concat (map (turnInteractions tools) turns))
  = map turn_stream turns.
Proof.
  induction 1 as [|t turns Ht _ IH]; [done|].
  cbn [map concat]. rewrite modelTurns_app, IH, TurnSpec_modelTurns by done.
  done.
Qed.

(** A stream that ends without an error, shows a tool-call event and
    completes at least one call makes its pass execute tools. *)
Lemma TurnSpec_tools t :
  TurnSpec t ->
  failure (turn_stream t) = None ->
  toolCallObserved (chunks (turn_stream t)) = true ->
  completedCalls (turn_stream t) ≠ [] ->
  turn_result t = Ok true.
Proof.
  destruct 1 as [? ? Hf|? ? ? Hor|]; intros Hfail Hobs Hcalls;
    [congruence| |done].
  destruct Hor; congruence.
Qed.

(** Any other stream that ends without an error is a final answer. *)
Lemma TurnSpec_final t :
  TurnSpec t ->
  failure (turn_stream t) = None ->
  toolCallObserved (chunks (turn_stream t)) = false
    ∨ completedCalls (turn_stream t) = [] ->
  turn_result t = Ok false.
Proof.
  destruct 1 as [? ? Hf| |]; intros Hfail Hor; [congruence|done|].
  destruct Hor; congruence.
Qed.

(** ** The loop body, equation by equation *)

(** One dispatch: what [executeEach] pushes and yields is read off the
    settled promise of [executeToolCallWithTimeout]. *)
Lemma executeEach_eq ch tools toolCall s :
  ∃ t outcome s1 calls,
    executeToolCallWithTimeout toolCall tools
      {| world := world s; heap := heap s;
         emitted :=
           emitted s
           ++ [EvToolExecutionStart (fn_name (tc_function toolCall))
                 (tc_id toolCall)];
         trace := trace s |}
    = (Ok (Settles t outcome), s1)
    ∧ trace s1 = trace s ++ Dispatched toolCall :: calls
    ∧ modelTurns calls = [] ∧ dispatches calls = []
    ∧ executeEach ch tools toolCall s =
        (Ok tt,
         {| world := snd (Date_now (world s1));
            heap :=
              <[ch := default [] (heap s !! ch)
                      ++ [toolMessage toolCall outcome
                            (fst (Date_now (world s1)))]]> (heap s);
            emitted := emitted s ++ toolEvents toolCall (replyFlag outcome);
            trace := trace s1 |}).
Proof.
  unfold executeEach, try_catch.
  bind_step. unfold yield at 1.
  bind_step.
  set (s0 := {| world := world s; heap := heap s;
                emitted := emitted s ++ [_]; trace := trace s |}).
  destruct (executeToolCallWithTimeout_spec toolCall tools s0)
    as (p & w' & calls & Hexec & Hturns & Hdisp & _).
  rewrite Hexec.
  destruct (Promise_race_timeout p
              (Rejected "Tool execution timeout after 30000ms"))
    as (t & o & Hrace & _).
  rewrite timeoutPromise_eq in *. rewrite Hrace in *.
  exists t, o. eexists _, calls. split; [reflexivity|].
  split_and!; [done..|].
  unfold mbind, M_bind, await, ask, push, yield, mret, M_ret. simpl.
  destruct o as [result|message]; simpl;
    destruct (Date_now w') as [now w'']; simpl;
    by rewrite <- app_assoc.
Qed.

(** How a dispatch settles: with the message of a tool-level failure, or
    with the result of a provider that fulfils before the timeout. *)
Lemma dispatch_rejected tools toolCall s message t outcome s1 :
  executeToolCallWithTimeout toolCall tools s = (Ok (Settles t outcome), s1) ->
  ToolFailure tools toolCall (world s) message ->
  outcome = Rejected message.
Proof.
  intros Hexec Hfail.
  destruct (executeToolCallWithTimeout_spec toolCall tools s)
    as (p & w' & calls & Hexec' & _ & _ & Hrace).
  rewrite Hexec' in Hexec. rewrite (Hrace message Hfail) in Hexec.
  by injection Hexec as _ <- _.
Qed.

Lemma dispatch_fulfilled tools toolCall s found args t result t' outcome s1 :
  executeToolCallWithTimeout toolCall tools s
  = (Ok (Settles t' outcome), s1) ->
  List.find (fun t => String.eqb (name t) (fn_name (tc_function toolCall)))
    tools = Some found ->
  JSON_parse (fn_arguments (tc_function toolCall)) = inl args ->
  fst (executeTool (world s) (serverId found)
         (fn_name (tc_function toolCall)) args)
  = Settles t (Fulfilled result) ->
  (t < TOOL_EXECUTION_TIMEOUT)%N ->
  outcome = Fulfilled result.
Proof.
  intros Hexec Hfind Hparse Hanswer Hearly. revert Hexec.
  unfold executeToolCallWithTimeout, executeToolCall, mbind, M_bind, record,
    ask, mret, M_ret.
  simpl. rewrite Hfind, Hparse. simpl.
  destruct (executeTool _ _ _ _) as [p w']. simpl in *. subst p.
  rewrite timeoutPromise_eq. simpl.
  destruct (N.ltb_spec t TOOL_EXECUTION_TIMEOUT) as [_|Hlate]; [|lia].
  intros Hexec. by injection Hexec as _ <- _.
Qed.

(** A pass whose stream asks for tools. *)
Lemma iterate_tools_eq ch tools s hist :
  heap s !! ch = Some hist ->
  failure (fst (chatStream (world s) hist tools)) = None ->
  toolCallObserved (chunks (fst (chatStream (world s) hist tools))) = true ->
  completedCalls (fst (chatStream (world s) hist tools)) ≠ [] ->
  iterate ch tools s =
  (for_of (completedCalls (fst (chatStream (world s) hist tools)))
     (executeEach ch tools);;
   mret true)
    {| world := snd (Date_now (snd (chatStream (world s) hist tools)));
       heap :=
         <[ch := hist
                 ++ [assistantMessage
                       (turnOutcome (fst (chatStream (world s) hist tools))
                          (fst (Date_now
                                  (snd (chatStream (world s) hist tools)))))]]>
           (heap s);
       emitted :=
         emitted s
         ++ map EvContent
              (streamTexts (chunks (fst (chatStream (world s) hist tools))));
       trace :=
         trace s
         ++ [CalledChatStream hist tools
               (fst (chatStream (world s) hist tools))] |}.
Proof.
  intros Hhist Hfail Hobs Hcalls. unfold iterate. bind_step.
  rewrite accumulateStreamingResponse_eq. rewrite Hhist. simpl default.
  cbv zeta. rewrite Hfail, wantsTools_eq, Hobs.
  rewrite bool_decide_eq_true_2 by done. cbn [andb].
  bind_step. unfold push at 1. cbn [heap world emitted trace].
  by rewrite Hhist.
Qed.

(** A pass whose stream is a final answer. *)
Lemma iterate_final_eq ch tools s hist :
  heap s !! ch = Some hist ->
  failure (fst (chatStream (world s) hist tools)) = None ->
  toolCallObserved (chunks (fst (chatStream (world s) hist tools))) = false
  ∨ completedCalls (fst (chatStream (world s) hist tools)) = [] ->
  iterate ch tools s =
  (Ok false,
   {| world := snd (Date_now (snd (chatStream (world s) hist tools)));
      heap :=
        <[ch := hist
                ++ [assistantMessage
                      (turnOutcome (fst (chatStream (world s) hist tools))
                         (fst (Date_now
                                 (snd (chatStream (world s) hist tools)))))]]>
          (heap s);
      emitted :=
        emitted s
        ++ map EvContent
             (streamTexts (chunks (fst (chatStream (world s) hist tools))));
      trace :=
        trace s
        ++ [CalledChatStream hist tools
              (fst (chatStream (world s) hist tools))] |}).
Proof.
  intros Hhist Hfail Hfinal. unfold iterate. bind_step.
  rewrite accumulateStreamingResponse_eq. rewrite Hhist. simpl default.
  cbv zeta. rewrite Hfail, wantsTools_eq.
  assert (toolCallObserved (chunks (fst (chatStream (world s) hist tools)))
          && bool_decide
               (completedCalls (fst (chatStream (world s) hist tools)) ≠ [])
          = false) as ->.
  { destruct Hfinal as [->| ->]; [done|]. apply andb_false_iff. right.
    by apply bool_decide_eq_false_2; intros ?. }
  unfold mbind, M_bind, push, mret, M_ret. cbn [heap world emitted trace].
  by rewrite Hhist.
Qed.

(** The first thing a loop that is entered does is to invoke the model
    with the transcript as it stands. *)
Lemma while_loop_first_call ch tools fuel iteration s hist :
  heap s !! ch = Some hist ->
  iteration < MAX_ITERATIONS ->
  MAX_ITERATIONS - iteration <= Z.of_nat fuel ->
  ∃ rest,
    trace (snd (while_loop fuel ch tools true iteration s))
    = trace s
      ++ CalledChatStream hist tools (fst (chatStream (world s) hist tools))
         :: rest.
Proof.
  intros Hhist Hlt Hfuel.
  destruct fuel as [|fuel]; [lia|].
  destruct (iterate_spec ch tools s hist Hhist)
    as (t & s1 & Hiter & Hh & Hstream & Hspec & Hadv).
  rewrite (while_loop_step _ _ _ _ _ _ _ Hlt Hiter).
  destruct Hadv as (Hheap1 & _ & Ht1). unfold turnInteractions in Ht1.
  rewrite Hh, Hstream in Ht1.
  destruct (TurnSpec_result t Hspec) as [[message ->]|[c ->]].
  - exists (turn_calls t). simpl. exact Ht1.
  - destruct (while_loop_spec ch tools fuel c (iteration + 1) s1)
      as (turns & c' & it' & s2 & Hrest & _ & _ & _ & _ & Ht2).
    { rewrite Hheap1, lookup_insert_eq. by eexists. }
    { lia. }
    rewrite Hrest. simpl. rewrite Ht2, Ht1, <- app_assoc. simpl.
    by eexists.
Qed.

(** Fuel beyond what the guard lets the loop use changes nothing. *)
Lemma while_loop_fuel ch tools fuel fuel' continueLoop iteration s :
  MAX_ITERATIONS - iteration <= Z.of_nat fuel ->
  MAX_ITERATIONS - iteration <= Z.of_nat fuel' ->
  while_loop fuel ch tools continueLoop iteration s
  = while_loop fuel' ch tools continueLoop iteration s.
Proof.
  revert fuel' continueLoop iteration s.
  induction fuel as [|fuel IH]; intros fuel' c it s Hfuel Hfuel'.
  - destruct fuel' as [|fuel']; [done|]. simpl.
    destruct (c && (it <? MAX_ITERATIONS)) eqn:Econd; [|done].
    apply andb_true_iff in Econd as [_ Hlt%Z.ltb_lt]. lia.
  - destruct fuel' as [|fuel']; simpl.
    + destruct (c && (it <? MAX_ITERATIONS)) eqn:Econd; [|done].
      apply andb_true_iff in Econd as [_ Hlt%Z.ltb_lt]. lia.
    + destruct (c && (it <? MAX_ITERATIONS)) eqn:Econd; [|done].
      unfold mbind, M_bind.
      destruct (try_catch _ _ s) as [[[|c']| | |] s1]; try done.
      apply IH; lia.
Qed.

(** The run is the loop, from the copy of the caller's array, followed by
    the check of the limit and the last event. *)
Lemma run_eq w h messages tools :
  run w h messages tools =
  match while_loop (Z.to_nat MAX_ITERATIONS) (fresh (dom h)) tools true 0
          {| world := w;
             heap := <[fresh (dom h) := default [] (h !! messages)]> h;
             emitted := []; trace := [] |} with
  | (Ok (_, iteration), s) =>
      (Ok tt,
       {| world := world s; heap := heap s;
          emitted :=
            emitted s
            ++ (if MAX_ITERATIONS <=? iteration
                then [EvError maxIterationsMessage] else [])
            ++ [EvDone];
          trace := trace s |})
  | (Throw message, s) => (Throw message, s)
  | (Hang, s) => (Hang, s)
  | (OutOfFuel, s) => (OutOfFuel, s)
  end.
Proof.
  unfold run, chatWithTools, initial.
  bind_step. unfold spread at 1.
  bind_step. cbn [world heap emitted trace].
  destruct (while_loop _ _ _ _ _ _) as [[[c it]| | |] s]; try done.
  destruct (MAX_ITERATIONS <=? it);
    unfold mbind, M_bind, yield, mret, M_ret; simpl;
    by rewrite <- ?app_assoc.
Qed.

Lemma run_trace w h messages tools :
  trace (snd (run w h messages tools))
  = trace (snd (while_loop (Z.to_nat MAX_ITERATIONS) (fresh (dom h)) tools
                  true 0
                  {| world := w;
                     heap := <[fresh (dom h) := default [] (h !! messages)]> h;
                     emitted := []; trace := [] |})).
Proof.
  rewrite run_eq.
  by destruct (while_loop _ _ _ _ _ _) as [[[c it]| | |] s].
Qed.

End Steps.

(** * The delta accumulator *)

(** C4, as stated, at the fragments [twoIds] of index 0: the first
    non-empty id ("call_a") is not the one that is kept, and the name is
    not overwritten by the second name fragment, which is empty. *)
Lemma C4_first_id_does_not_persist :
  ¬ (∀ r, Map_get (accumulateDeltas Example.twoIds []) 0 = Some r ->
          p_id r = head (idFragments (fragmentsOf 0 Example.twoIds)))
  ∧ ¬ (∀ r, Map_get (accumulateDeltas Example.twoIds []) 0 = Some r ->
            fn_name <$> p_function r
            = last (omap (fun delta => d_function delta ≫= df_name)
                      (fragmentsOf 0 Example.twoIds))).
Proof.
  split; intros Hclaim; specialize (Hclaim _ eq_refl); discriminate Hclaim.
Qed.

(** C4, amended: for every sequence of fragments and every index, the
    record accumulated for the index exists exactly when the index received
    a fragment; its id is the latest non-empty id among the fragments of
    the index and its kind the latest kind (so both are set only by
    fragments that carry them and persist across fragments that do not);
    its name is the latest non-empty name fragment (each non-empty name
    fragment overwrites the name); its argument text is the in-order
    concatenation of all argument fragments of the index. *)
Theorem C4_merge_rule (deltas : list ToolCallDelta) (i : Z) :
  let fs := fragmentsOf i deltas in
  match Map_get (accumulateDeltas deltas []) i with
  | None => fs = []
  | Some r =>
      fs ≠ []
      ∧ p_id r = last (idFragments fs)
      ∧ p_type r = last (omap d_type fs)
      ∧ fn_name (default emptyFunction (p_function r))
        = default "" (last (nameFragments fs))
      ∧ fn_arguments (default emptyFunction (p_function r))
        = String.concat "" (argumentFragments fs)
      ∧ (p_function r = None ↔
         nameFragments fs = []
         ∧ String.concat "" (argumentFragments fs) = "")
  end.
Proof.
  intros fs. destruct (Map_get _ i) as [r|] eqn:Eget.
  - apply accumulated_record in Eget as [Hfs ->]. fold fs.
    split_and!; [done| | | | |].
    + rewrite merged_id. by destruct (last _).
    + rewrite merged_type. by destruct (last _).
    + by rewrite merged_function_name.
    + by rewrite merged_function_arguments.
    + rewrite arguments_empty.
      pose proof (merged_function_is_Some fs emptyPartial) as Hsome.
      destruct (p_function (fold_left mergeDelta fs emptyPartial)) as [f|].
      * split; [done|]. intros [Hn Ha]. exfalso.
        assert (is_Some (Some f)) as Hf by by eexists.
        apply Hsome in Hf as [[? ?]|[?|?]]; done.
      * split; [|done]. intros _.
        destruct (decide (nameFragments fs = [])) as [Hn|Hn].
        -- split; [done|].
           destruct (omap _ fs) eqn:Ea; [done|]. exfalso.
           assert (is_Some (@None ToolCallFunction)) as [? ?]; [|done].
           apply Hsome. right. by right.
        -- exfalso.
           assert (is_Some (@None ToolCallFunction)) as [? ?]; [|done].
           apply Hsome. right. by left.
  - rewrite Map_get_accumulateDeltas in Eget. fold fs in Eget.
    by destruct fs.
Qed.

(** C5, as stated, at two interleavings of the same fragments of the
    indices 0 and 1: the finalized lists differ. *)
Lemma C5_result_depends_on_interleaving :
  sameFragmentsPerIndex Example.oneThenZero Example.zeroThenOne
  ∧ finalizeToolCalls (accumulateDeltas Example.oneThenZero [])
    ≠ finalizeToolCalls (accumulateDeltas Example.zeroThenOne []).
Proof.
  split; [|discriminate].
  intros i. unfold fragmentsOf, Example.oneThenZero, Example.zeroThenOne.
  simpl. destruct i as [|[q|q|]|q]; done.
Qed.

(** C5, amended: the number of finalized calls is the number of distinct
    indices that received a non-empty id and a non-empty name; the calls
    are exactly the calls built from the fragments of these indices, one
    per index (an index that misses an id or a name yields none), listed in
    the order in which the indices were first seen; a call whose index
    received no argument text carries the text "{}"; and under any
    re-interleaving that keeps the fragments of each index in their order,
    the finalized list is a permutation of the original one (the same
    calls, hence the same number, possibly in another order). *)
Theorem C5_finalized_calls (deltas : list ToolCallDelta) :
  let calls := finalizeToolCalls (accumulateDeltas deltas []) in
  length calls = size (completeIndices deltas)
  ∧ (∀ c, c ∈ calls ->
       ∃ i, i ∈ completeIndices deltas ∧ builtFrom (fragmentsOf i deltas) c)
  ∧ (∀ i, i ∈ completeIndices deltas ->
       ∃ c, c ∈ calls ∧ builtFrom (fragmentsOf i deltas) c)
  ∧ Forall2 (fun i c => builtFrom (fragmentsOf i deltas) c)
      (filter (fun i => i ∈ completeIndices deltas)
         (firstSeen (map d_index deltas)))
      calls
  ∧ (∀ i c, builtFrom (fragmentsOf i deltas) c ->
       String.concat "" (argumentFragments (fragmentsOf i deltas)) = "" ->
       fn_arguments (tc_function c) = "{}")
  ∧ (∀ deltas', sameFragmentsPerIndex deltas deltas' ->
       calls ≡ₚ finalizeToolCalls (accumulateDeltas deltas' [])).
Proof.
  intros calls. unfold calls. split_and!.
  - apply finalized_length.
  - intros c Hc. apply finalized_elem in Hc as (i & Hi & ->).
    exists i. split; [done|].
    apply elem_of_filter in Hi as [[Hid Hname] _].
    by apply toToolCall_merged.
  - intros i Hi. eexists. split.
    + apply finalized_elem. by exists i.
    + apply elem_of_filter in Hi as [[Hid Hname] _].
      by apply toToolCall_merged.
  - apply finalized_in_order.
  - intros i c (_ & _ & Hargs) Hempty. by rewrite Hargs, Hempty.
  - intros deltas' Hsame. by apply finalized_Permutation.
Qed.

(** * Runs of [chatWithTools] *)

Section Claims.
Context `{Runtime}.

Lemma no_event_no_call stream :
  toolCallObserved (chunks stream) = false -> completedCalls stream = [].
Proof.
  unfold completedCalls, toolCallObserved, streamDeltas.
  intros Hobs. assert (flat_map (fun chunk => default [] (toolCallEvent chunk))
                         (chunks stream) = []) as ->; [|done].
  induction (chunks stream) as [|c cs IH]; [done|]. simpl in *.
  apply orb_false_iff in Hobs as [Hc Hcs]. rewrite IH by done.
  destruct (toolCallEvent c); [|done].
  apply bool_decide_eq_false in Hc. exfalso. apply Hc. by eexists.
Qed.

(** The events of a pass never include [done]. *)
Lemma turnEvents_not_done t :
  TurnSpec t -> Forall (fun e => isDoneEvent e = false) (turnEvents t).
Proof.
  intros Hspec. unfold turnEvents. apply Forall_app. split.
  - destruct Hspec as [? ? ? ? He|? ? ? ? ? He|? ? ? ? ? ? ? ? He]; rewrite He.
    + by apply Forall_fmap, Forall_true.
    + by apply Forall_fmap, Forall_true.
    + apply Forall_app. split; [by apply Forall_fmap, Forall_true|].
      apply Forall_concat.
      generalize (map snd replies). generalize (completedCalls (turn_stream t)).
      intros calls. induction calls as [|c calls IH]; intros [|f fs]; simpl;
        try constructor; [by repeat constructor|apply IH].
  - destruct (turn_result t); by repeat constructor.
Qed.

(** C10: the caller's array is never mutated.  The run copies it into a
    new array (the conversation history) and every message is pushed onto
    that copy: after any run the store is the original store plus the new
    array, which holds the original messages followed by the appended
    ones; in particular the caller's array holds its original elements. *)
Theorem C10_input_not_mutated w h messages tools ms :
  h !! messages = Some ms ->
  fst (run w h messages tools) = Ok tt
  ∧ heap (snd (run w h messages tools)) !! messages = Some ms
  ∧ fresh (dom h) ≠ messages
  ∧ ∃ appended,
      heap (snd (run w h messages tools))
      = <[fresh (dom h) := ms ++ appended]> h.
Proof.
  intros Hms.
  destruct (run_spec w h messages tools)
    as (turns & c & it & s' & Hrun & _ & _ & Hheap & _).
  rewrite Hrun. simpl. rewrite Hms in Hheap. simpl in Hheap.
  assert (fresh (dom h) ≠ messages) as Hfresh.
  { intros Heq. pose proof (fresh_not_allocated h) as Hnone.
    rewrite Heq, Hms in Hnone. done. }
  split_and!; [done| |done|by eexists].
  rewrite Hheap, lookup_insert_ne by done. done.
Qed.

(** C8, amended: a run whose first model turn ends without a tool-call
    event appends exactly one message, the assistant message, to the
    conversation history; it invokes the model once, dispatches no tool,
    and emits the text events of the turn followed by [done] only (no
    tool event and no error event). *)
Theorem C8_final_answer_first w h messages tools stream :
  head (modelTurns (trace (snd (run w h messages tools)))) = Some stream ->
  failure stream = None ->
  toolCallObserved (chunks stream) = false ->
  fst (run w h messages tools) = Ok tt
  ∧ (∃ now,
       heap (snd (run w h messages tools))
       = <[fresh (dom h) :=
             default [] (h !! messages)
             ++ [{| role := assistant;
                    content := String.concat "" (streamTexts (chunks stream));
                    tool_calls := None;
                    tool_call_id := None;
                    timestamp := now |}]]> h)
  ∧ modelTurns (trace (snd (run w h messages tools))) = [stream]
  ∧ dispatches (trace (snd (run w h messages tools))) = []
  ∧ emitted (snd (run w h messages tools))
    = map EvContent (streamTexts (chunks stream)) ++ [EvDone].
Proof.
  destruct (run_spec w h messages tools)
    as (turns & c & it & s' & Hrun & Hloop & Hall & Hheap & Hev & Htr).
  rewrite Hrun. simpl. intros Hhead Hfail Hobs.
  rewrite Htr, turns_modelTurns in Hhead by done.
  apply Loop_first in Hloop as (t & rest & -> & Hfirst);
    [|unfold MAX_ITERATIONS; lia].
  simpl in Hhead. injection Hhead as <-.
  apply Forall_cons in Hall as [Ht Hrest].
  pose proof (TurnSpec_final t Ht Hfail (or_introl Hobs)) as Hres.
  destruct Hfirst as [(m & Hm & _)|(c0 & Hc0 & Hloop)]; [congruence|].
  rewrite Hres in Hc0. injection Hc0 as <-.
  apply Loop_stopped in Hloop as (-> & -> & ->).
  destruct Ht as [? Hr|now _ _ _ Hmsgs Hevs Hcalls|? ? Hr]; try congruence.
  split_and!; [done| | | |].
  - exists now. rewrite Hheap. simpl. rewrite Hmsgs, app_nil_r.
    unfold turnOutcome. simpl. by rewrite (no_event_no_call _ Hobs).
  - rewrite Htr. simpl. unfold turnInteractions. by rewrite Hcalls.
  - rewrite Htr. simpl. unfold turnInteractions. by rewrite Hcalls.
  - rewrite Hev. simpl. unfold turnEvents. rewrite Hres, Hevs, !app_nil_r.
    done.
Qed.

Lemma tool_events_last (calls : list ToolCall) (flags : list bool) :
  calls ≠ [] -> length flags = length calls ->
  ∃ before c isErr,
    last calls = Some c
    ∧ concat (zip_with toolEvents calls flags)
      = before ++ [EvToolExecutionResult (fn_name (tc_function c)) (tc_id c)
                     isErr].
Proof.
  revert flags. induction calls as [|c [|c' rest] IH]; intros flags Hne Hlen;
    [done| |].
  - destruct flags as [|f [|? ?]]; try done.
    by exists [EvToolExecutionStart (fn_name (tc_function c)) (tc_id c)], c, f.
  - destruct flags as [|f flags]; [done|].
    destruct (IH flags) as (before & c0 & f0 & Hlast & Hcat);
      [done|by injection Hlen|].
    exists (toolEvents c f ++ before), c0, f0. split; [done|].
    change (zip_with toolEvents (c :: c' :: rest) (f :: flags))
      with (toolEvents c f :: zip_with toolEvents (c' :: rest) flags).
    rewrite concat_cons, Hcat. by rewrite app_assoc.
Qed.

(** C1: in every run in which each model turn ends without a stream error,
    shows a tool-call event and completes at least one call, the model is
    invoked exactly 10 times (there is no 11th invocation), and the events
    end with the result event of the last tool call of the 10th turn, then
    the error event of the iteration limit, then [done]. *)
Theorem C1_max_turns w h messages tools :
  Forall (fun stream => failure stream = None
                        ∧ toolCallObserved (chunks stream) = true
                        ∧ completedCalls stream ≠ [])
    (modelTurns (trace (snd (run w h messages tools)))) ->
  fst (run w h messages tools) = Ok tt
  ∧ length (modelTurns (trace (snd (run w h messages tools)))) = 10%nat
  ∧ ∃ before stream toolCall isErr,
      last (modelTurns (trace (snd (run w h messages tools)))) = Some stream
      ∧ last (completedCalls stream) = Some toolCall
      ∧ emitted (snd (run w h messages tools))
        = before
          ++ [EvToolExecutionResult (fn_name (tc_function toolCall))
                (tc_id toolCall) isErr;
              EvError maxIterationsMessage;
              EvDone].
Proof.
  destruct (run_spec w h messages tools)
    as (turns & c & it & s' & Hrun & Hloop & Hall & Hheap & Hev & Htr).
  rewrite Hrun. simpl. rewrite Htr, turns_modelTurns by done. intros Htools.
  assert (Forall (fun t => turn_result t = Ok true) turns) as Hres.
  { rewrite Forall_fmap in Htools. rewrite Forall_forall in *.
    intros t Ht. destruct (Htools t Ht) as (? & ? & ?).
    apply TurnSpec_tools; [by apply Hall|done..]. }
  pose proof (Loop_iterations _ _ _ _ _ Hloop) as Hlen.
  assert (c = true ∧ it = MAX_ITERATIONS) as [-> ->].
  { eapply Loop_all_tools; [exact Hloop|done|unfold MAX_ITERATIONS; lia|done]. }
  unfold MAX_ITERATIONS in Hlen.
  assert (length turns = 10%nat) as Hten by lia.
  split_and!; [done|by rewrite length_map|].
  destruct (decide (turns = [])) as [->|Hne]; [done|].
  apply last_is_Some in Hne as [t Hlast].
  pose proof Hlast as Hsplit. apply last_Some in Hsplit as [init ->].
  apply Forall_app in Hall as [_ Ht]. apply Forall_inv in Ht.
  apply Forall_app in Hres as [_ Hrt]. apply Forall_inv in Hrt.
  destruct Ht as [? Hr|? Hr|now replies _ _ _ Hcalls Hans _ Hevs _ _];
    try congruence.
  destruct (tool_events_last (completedCalls (turn_stream t)) (map snd replies))
    as (before & toolCall & isErr & Hlc & Hcat); [done| |].
  { rewrite length_map. symmetry. by eapply Forall2_length. }
  exists (concat (map turnEvents init)
          ++ map EvContent (streamTexts (chunks (turn_stream t))) ++ before),
    (turn_stream t), toolCall, isErr.
  split_and!; [|done|].
  - rewrite map_app. simpl. by rewrite last_snoc.
  - rewrite Hev, map_app, concat_app. simpl. unfold turnEvents at 2.
    rewrite Hrt, Hevs, Hcat, !app_nil_r, <- !app_assoc. done.
Qed.

(** C9: in every run whose first model turn completes exactly one tool
    call and whose second model turn ends without a tool-call event, three
    messages are appended, in this order: the assistant message of turn 1
    carrying the call; one tool message carrying the result of the call,
    that is, of the one dispatch [executeToolCallWithTimeout] made in the
    world as turn 1 left it: its [tool_call_id] is the id of the call and
    its content is the flattened result when the dispatch fulfilled, and
    "Error executing <name>: <message>" when it rejected; and the assistant
    message of turn 2.  Exactly one start/result pair of events is emitted,
    the flag of the result event being that of the outcome, one call is
    dispatched, and the second model call is given the transcript with the
    first two of these messages.  In general the completed calls of a turn
    are listed in the order in which their indices were first seen on the
    stream, and they are dispatched one after the other in that order: each
    dispatch pushes its tool message, read off the outcome of that
    dispatch, before the next call is looked at. *)
Theorem C9_one_tool_call_then_answer w h messages tools stream1 stream2
    toolCall :
  modelTurns (trace (snd (run w h messages tools))) !! 0%nat = Some stream1 ->
  failure stream1 = None ->
  toolCallObserved (chunks stream1) = true ->
  completedCalls stream1 = [toolCall] ->
  modelTurns (trace (snd (run w h messages tools))) !! 1%nat = Some stream2 ->
  failure stream2 = None ->
  toolCallObserved (chunks stream2) = false ->
  fst (run w h messages tools) = Ok tt
  ∧ (∃ atDispatch t outcome afterDispatch now1 now2 now3,
       stream1 = fst (chatStream w (default [] (h !! messages)) tools)
       ∧ now1
         = fst (Date_now
                  (snd (chatStream w (default [] (h !! messages)) tools)))
       ∧ world atDispatch
         = snd (Date_now
                  (snd (chatStream w (default [] (h !! messages)) tools)))
       ∧ trace atDispatch
         = [CalledChatStream (default [] (h !! messages)) tools stream1]
       ∧ executeToolCallWithTimeout toolCall tools atDispatch
         = (Ok (Settles t outcome), afterDispatch)
       ∧ now2 = fst (Date_now (world afterDispatch))
       ∧ heap (snd (run w h messages tools))
         = <[fresh (dom h) :=
               default [] (h !! messages)
               ++ [assistantMessage (turnOutcome stream1 now1);
                   toolMessage toolCall outcome now2;
                   assistantMessage (turnOutcome stream2 now3)]]> h
       ∧ tool_calls (assistantMessage (turnOutcome stream1 now1))
         = Some [toolCall]
       ∧ tool_calls (assistantMessage (turnOutcome stream2 now3)) = None
       ∧ emitted (snd (run w h messages tools))
         = map EvContent (streamTexts (chunks stream1))
           ++ toolEvents toolCall (replyFlag outcome)
           ++ map EvContent (streamTexts (chunks stream2))
           ++ [EvDone]
       ∧ trace (snd (run w h messages tools))
         = trace afterDispatch
           ++ [CalledChatStream
                 (default [] (h !! messages)
                  ++ [assistantMessage (turnOutcome stream1 now1);
                      toolMessage toolCall outcome now2])
                 tools stream2])
  ∧ dispatches (trace (snd (run w h messages tools))) = [toolCall]
  ∧ (∀ stream,
       Forall2 (fun i c =>
                  builtFrom (fragmentsOf i (streamDeltas (chunks stream))) c)
         (filter (fun i => i ∈ completeIndices (streamDeltas (chunks stream)))
            (firstSeen (map d_index (streamDeltas (chunks stream)))))
         (completedCalls stream))
  ∧ (∀ ch calls s, is_Some (heap s !! ch) ->
       ∃ s' (replies : list (Message * bool)),
         for_of calls (executeEach ch tools) s = (Ok tt, s')
         ∧ heap s' =
             <[ch := default [] (heap s !! ch) ++ map fst replies]> (heap s)
         ∧ Forall2 (fun c reply => answers c (fst reply)) calls replies
         ∧ dispatches (trace s') = dispatches (trace s) ++ calls
         ∧ emitted s' =
             emitted s ++ concat (zip_with toolEvents calls (map snd replies)))
  ∧ (∀ ch c rest s,
       ∃ t outcome afterDispatch s1,
         executeToolCallWithTimeout c tools
           {| world := world s; heap := heap s;
              emitted :=
                emitted s
                ++ [EvToolExecutionStart (fn_name (tc_function c)) (tc_id c)];
              trace := trace s |}
         = (Ok (Settles t outcome), afterDispatch)
         ∧ executeEach ch tools c s = (Ok tt, s1)
         ∧ heap s1 =
             <[ch := default [] (heap s !! ch)
                     ++ [toolMessage c outcome
                           (fst (Date_now (world afterDispatch)))]]> (heap s)
         ∧ emitted s1 = emitted s ++ toolEvents c (replyFlag outcome)
         ∧ for_of (c :: rest) (executeEach ch tools) s
           = for_of rest (executeEach ch tools) s1).
Proof.
  intros H1 Hfail1 Hobs1 Hcalls1 H2 Hfail2 Hobs2.
  set (hist := default [] (h !! messages)) in *.
  set (ch := fresh (dom h)).
  set (s0 := {| world := w; heap := <[ch := hist]> h;
                emitted := []; trace := [] |}).
  assert (heap s0 !! ch = Some hist) as Hhist0
    by (simpl; by rewrite lookup_insert_eq).
  (* the first model call *)
  rewrite run_trace in H1, H2. fold ch hist s0 in H1, H2.
  destruct (while_loop_first_call ch tools (Z.to_nat MAX_ITERATIONS) 0 s0 hist
              Hhist0)
    as (rest1 & Hfirst); [unfold MAX_ITERATIONS; lia..|].
  rewrite Hfirst in H1. simpl in H1. injection H1 as Hstream1.
  change (world s0) with w in Hstream1.
  (* the first pass dispatches the call *)
  pose proof (iterate_tools_eq ch tools s0 hist Hhist0) as Hiter1.
  change (world s0) with w in Hiter1. rewrite Hstream1 in Hiter1.
  specialize (Hiter1 Hfail1 Hobs1). rewrite Hcalls1 in Hiter1.
  specialize (Hiter1 ltac:(done)).
  cbn [for_of] in Hiter1.
  match type of Hiter1 with
  | _ = _ ?st => set (sB := st) in *
  end.
  destruct (executeEach_eq ch tools toolCall sB)
    as (t & outcome & s1 & calls & Hexec & Htrace1 & Hturns1 & Hdisp1 & Heach).
  unfold mbind, M_bind in Hiter1. rewrite Heach in Hiter1.
  unfold mret, M_ret in Hiter1.
  match type of Hiter1 with
  | _ = (_, ?st) => set (sC := st) in *
  end.
  assert (while_loop (Z.to_nat MAX_ITERATIONS) ch tools true 0 s0
          = while_loop 9 ch tools true 1 sC) as Hloop1.
  { change (Z.to_nat MAX_ITERATIONS) with 10%nat.
    assert (0 < MAX_ITERATIONS) as Hlt by (unfold MAX_ITERATIONS; lia).
    by rewrite (while_loop_step _ _ _ _ _ _ _ Hlt Hiter1). }
  (* the second model call *)
  set (a1 := assistantMessage
               (turnOutcome stream1
                  (fst (Date_now (snd (chatStream w hist tools)))))) in *.
  set (reply := toolMessage toolCall outcome (fst (Date_now (world s1)))) in *.
  assert (heap sC !! ch = Some (hist ++ [a1; reply])) as HhistC.
  { subst sC sB. simpl. rewrite lookup_insert_eq, lookup_insert_eq.
    simpl. by rewrite <- app_assoc. }
  rewrite Hloop1 in H2.
  destruct (while_loop_first_call ch tools 9 1 sC _ HhistC)
    as (rest2 & Hsecond); [unfold MAX_ITERATIONS; lia..|].
  assert (trace sC = CalledChatStream hist tools stream1
                     :: Dispatched toolCall :: calls) as HtraceC.
  { subst sC. simpl. rewrite Htrace1. subst sB. simpl. done. }
  rewrite Hsecond, HtraceC in H2.
  change (CalledChatStream hist tools stream1 :: Dispatched toolCall :: calls)
    with ([CalledChatStream hist tools stream1; Dispatched toolCall] ++ calls)
    in H2.
  rewrite !modelTurns_app, Hturns1 in H2. simpl in H2.
  injection H2 as Hstream2.
  (* the second pass is the final answer *)
  pose proof (iterate_final_eq ch tools sC _ HhistC) as Hiter2.
  change (world sC) with (snd (Date_now (world s1))) in Hiter2.
  rewrite Hstream2 in Hiter2.
  specialize (Hiter2 Hfail2 (or_introl Hobs2)).
  match type of Hiter2 with
  | _ = (_, ?st) => set (sE := st) in *
  end.
  assert (while_loop (Z.to_nat MAX_ITERATIONS) ch tools true 0 s0
          = (Ok (false, 2), sE)) as Hloop.
  { rewrite Hloop1.
    assert (1 < MAX_ITERATIONS) as Hlt by (unfold MAX_ITERATIONS; lia).
    rewrite (while_loop_step _ _ _ _ _ _ _ Hlt Hiter2).
    apply while_loop_stop. }
  rewrite run_eq. fold ch hist s0. rewrite Hloop.
  cbn [fst snd world heap emitted trace].
  split_and!.
  - done.
  - exists {| world := world sB; heap := heap sB;
                emitted :=
                  emitted sB
                  ++ [EvToolExecutionStart (fn_name (tc_function toolCall))
                        (tc_id toolCall)];
                trace := trace sB |}, t, outcome, s1.
    eexists _, _, _.
    split_and!; [done|reflexivity|by subst sB|by subst sB
                |exact Hexec|reflexivity| | | | |].
    + subst sE sC sB. simpl. rewrite !insert_insert_eq.
      f_equal. by rewrite <- app_assoc.
    + unfold turnOutcome. simpl. by rewrite Hcalls1.
    + unfold turnOutcome. simpl. by rewrite (no_event_no_call _ Hobs2).
    + subst sE sC sB. simpl. by rewrite <- !app_assoc.
    + subst sE. simpl. subst sC. simpl. done.
  - unfold sE. cbn [trace]. rewrite HtraceC.
    change (CalledChatStream hist tools stream1
            :: Dispatched toolCall :: calls)
      with ([CalledChatStream hist tools stream1; Dispatched toolCall]
            ++ calls).
    rewrite !dispatches_app, Hdisp1. done.
  - intros stream. apply finalized_in_order.
  - intros ch' calls' s Halloc.
    destruct (for_of_executeEach_spec ch' tools calls' s Halloc)
      as (s2 & replies & intr & Hfor & (Hh & He & Ht) & Hall2 & _ & Hd).
    exists s2, replies. rewrite Ht, dispatches_app, Hd. done.
  - intros ch' c rest s.
    destruct (executeEach_eq ch' tools c s)
      as (t' & outcome' & s2 & calls' & Hexec' & _ & _ & _ & Heach').
    exists t', outcome', s2. eexists. split; [exact Hexec'|].
    split; [exact Heach'|]. split_and!; [done..|].
    simpl. unfold mbind, M_bind. by rewrite Heach'.
Qed.

(** C3, amended: a turn is classified [tool_calls] exactly when a tool-call
    event was observed on its stream.  When such an event was observed and
    the finalized list of completed calls is not empty, the loop appends
    the assistant message, dispatches the completed calls and goes on to
    another pass.  In every other case (no tool-call event, or an empty
    finalized list) it appends the assistant message and the loop ends with
    [continueLoop = false]: the turn is the final answer. *)
Theorem C3_turn_classification ch tools s hist :
  heap s !! ch = Some hist ->
  failure (fst (chatStream (world s) hist tools)) = None ->
  ∃ response s1,
    accumulateStreamingResponse ch tools s = (Ok response, s1)
    ∧ (finishReason response = "tool_calls" ↔
       toolCallObserved (chunks (fst (chatStream (world s) hist tools))) = true)
    ∧ toolCalls response
      = completedCalls (fst (chatStream (world s) hist tools))
    ∧ if toolCallObserved (chunks (fst (chatStream (world s) hist tools)))
         && bool_decide (toolCalls response ≠ [])
      then
        ∃ s' (replies : list (Message * bool)),
          iterate ch tools s = (Ok true, s')
          ∧ heap s' =
              <[ch := hist ++ assistantMessage response :: map fst replies]>
                (heap s)
          ∧ Forall2 (fun c reply => answers c (fst reply))
              (toolCalls response) replies
          ∧ dispatches (trace s') = dispatches (trace s) ++ toolCalls response
          ∧ ∀ fuel iteration, iteration < MAX_ITERATIONS ->
              while_loop (S fuel) ch tools true iteration s
              = while_loop fuel ch tools true (iteration + 1) s'
      else
        ∃ s',
          iterate ch tools s = (Ok false, s')
          ∧ heap s' = <[ch := hist ++ [assistantMessage response]]> (heap s)
          ∧ dispatches (trace s') = dispatches (trace s)
          ∧ ∀ fuel iteration, iteration < MAX_ITERATIONS ->
              while_loop (S fuel) ch tools true iteration s
              = (Ok (false, iteration + 1), s').
Proof.
  intros Hhist Hfail.
  pose proof (accumulateStreamingResponse_eq ch tools s) as Hacc.
  rewrite Hhist in Hacc. simpl in Hacc. rewrite Hfail in Hacc.
  set (stream := fst (chatStream (world s) hist tools)) in *.
  set (w1 := snd (chatStream (world s) hist tools)) in *.
  eexists _, _. split; [exact Hacc|]. split_and!.
  - unfold turnOutcome. simpl. by destruct (toolCallObserved (chunks stream)).
  - done.
  - change (toolCalls (turnOutcome stream (fst (Date_now w1))))
      with (completedCalls stream).
    destruct (toolCallObserved (chunks stream)
              && bool_decide (completedCalls stream ≠ [])) eqn:Ewants.
    + assert (∃ s2 (replies : list (Message * bool)),
                iterate ch tools s = (Ok true, s2)
                ∧ heap s2 =
                    <[ch := hist ++ assistantMessage
                              (turnOutcome stream (fst (Date_now w1)))
                            :: map fst replies]> (heap s)
                ∧ Forall2 (fun c reply => answers c (fst reply))
                    (completedCalls stream) replies
                ∧ dispatches (trace s2)
                  = dispatches (trace s) ++ completedCalls stream)
        as (s2 & replies & Hiter & Hh & Hall & Hd).
      { unfold iterate. bind_step. rewrite Hacc.
        rewrite wantsTools_eq, Ewants.
        bind_step. unfold push at 1.
        bind_step.
        match goal with
        | |- context [for_of ?l _ ?st] =>
            destruct (for_of_executeEach_spec ch tools l st)
              as (s2 & replies & intr & Hrun & (Hh & He & Ht) & Hall & _ & Hd)
        end.
        { simpl. rewrite lookup_insert_eq. by eexists. }
        rewrite Hrun. exists s2, replies. split_and!; [done| |done|].
        - rewrite Hh. simpl.
          rewrite lookup_insert_eq, insert_insert_eq, Hhist. simpl.
          by rewrite <- app_assoc.
        - rewrite Ht. simpl. rewrite !dispatches_app, Hd. simpl.
          by rewrite app_nil_r. }
      exists s2, replies. split_and!; [done..|].
      intros fuel iteration Hlt.
      by rewrite (while_loop_step _ _ _ _ _ _ _ Hlt Hiter).
    + assert (∃ s',
                iterate ch tools s = (Ok false, s')
                ∧ heap s' =
                    <[ch := hist ++ [assistantMessage
                                       (turnOutcome stream (fst (Date_now w1)))]]>
                      (heap s)
                ∧ dispatches (trace s') = dispatches (trace s))
        as (s' & Hiter & Hh & Hd).
      { unfold iterate. bind_step. rewrite Hacc.
        rewrite wantsTools_eq, Ewants.
        unfold mbind, M_bind, push, mret, M_ret. cbn [heap world emitted trace].
        rewrite Hhist. cbn [default].
        eexists. split_and!; [reflexivity|done|].
        simpl. rewrite dispatches_app. simpl. by rewrite app_nil_r. }
      exists s'. split_and!; [done..|].
      intros fuel iteration Hlt.
      rewrite (while_loop_step _ _ _ _ _ _ _ Hlt Hiter).
      apply while_loop_stop.
Qed.

(** C6, amended: when a dispatched tool call fails by throwing at a
    tool-level step (the name is not in the catalog, the argument text does
    not parse, the timeout wins the race, or the provider's call rejects),
    the loop pushes exactly one tool message whose content is
    "Error executing <name>: <message>".  When the provider returns an
    error result in time (it fulfils with [isError = true]), the loop
    pushes exactly one tool message as well, but its content is the
    flattened text of that result: neither the tool name nor
    "Error executing" is added.  In both cases the [tool_call_id] of the
    message is the id of the call, the result event has [isError = true],
    and the loop goes on: the remaining calls of the turn are processed
    from that state, the pass ends with [continueLoop = true] whatever the
    tools did, and, below the iteration limit, the loop invokes the model
    again. *)
Theorem C6_tool_failure_is_reported ch tools toolCall s hist text :
  heap s !! ch = Some hist ->
  (∃ message,
     ToolFailure tools toolCall (world s) message
     ∧ text =
         "Error executing " +:+ fn_name (tc_function toolCall) +:+ ": "
         +:+ message)
  ∨ (∃ found args t result,
       List.find (fun t => String.eqb (name t)
                             (fn_name (tc_function toolCall))) tools
       = Some found
       ∧ JSON_parse (fn_arguments (tc_function toolCall)) = inl args
       ∧ fst (executeTool (world s) (serverId found)
                (fn_name (tc_function toolCall)) args)
         = Settles t (Fulfilled result)
       ∧ (t < TOOL_EXECUTION_TIMEOUT)%N
       ∧ isError result = Some true
       ∧ text = formatToolResult result) ->
  (∃ s' m,
     executeEach ch tools toolCall s = (Ok tt, s')
     ∧ heap s' = <[ch := hist ++ [m]]> (heap s)
     ∧ role m = tool
     ∧ content m = text
     ∧ tool_call_id m = Some (tc_id toolCall)
     ∧ emitted s' =
         emitted s
         ++ [EvToolExecutionStart (fn_name (tc_function toolCall))
               (tc_id toolCall);
             EvToolExecutionResult (fn_name (tc_function toolCall))
               (tc_id toolCall) true]
     ∧ ∀ rest,
         for_of (toolCall :: rest) (executeEach ch tools) s
         = for_of rest (executeEach ch tools) s')
  ∧ (∀ s0 hist0 fuel iteration,
       heap s0 !! ch = Some hist0 ->
       failure (fst (chatStream (world s0) hist0 tools)) = None ->
       toolCallObserved (chunks (fst (chatStream (world s0) hist0 tools)))
         = true ->
       completedCalls (fst (chatStream (world s0) hist0 tools)) ≠ [] ->
       iteration + 1 < MAX_ITERATIONS ->
       MAX_ITERATIONS - iteration <= Z.of_nat (S fuel) ->
       ∃ s1 r s2,
         iterate ch tools s0 = (Ok true, s1)
         ∧ while_loop (S fuel) ch tools true iteration s0 = (Ok r, s2)
         ∧ (length (modelTurns (trace s0)) + 2
            <= length (modelTurns (trace s2)))%nat).
Proof.
  intros Hhist Hfail. split.
  - destruct (executeEach_eq ch tools toolCall s)
      as (t' & outcome & s1 & calls & Hexec & _ & _ & _ & Heach).
    assert (replyContent toolCall outcome = text
            ∧ replyFlag outcome = true) as [Hcontent Hflag].
    { destruct Hfail as [(message & Hwhy & ->)
                        |(found & args & t & result & Hfind & Hparse
                          & Hanswer & Hearly & Herr & ->)].
      - by rewrite (dispatch_rejected _ _ _ _ _ _ _ Hexec Hwhy).
      - rewrite (dispatch_fulfilled _ _ _ _ _ _ _ _ _ _ Hexec Hfind Hparse
                   Hanswer Hearly).
        simpl. by rewrite Herr. }
    eexists _, (toolMessage toolCall outcome _).
    rewrite Hflag, Hhist in Heach.
    split; [exact Heach|]. simpl.
    split_and!; [done..|].
    intros rest. simpl. unfold mbind, M_bind. by rewrite Heach.
  - intros s0 hist0 fuel iteration Hhist0 Hok Hobs Hcalls Hlt Hfuel.
    destruct (iterate_spec ch tools s0 hist0 Hhist0)
      as (t & s1 & Hiter & _ & Hstream & Hspec & Hadv).
    rewrite <- Hstream in *.
    rewrite (TurnSpec_tools t Hspec Hok Hobs Hcalls) in Hiter.
    destruct (while_loop_spec ch tools fuel true (iteration + 1) s1)
      as (turns & c' & it' & s2 & Hrest & Hloop & Hall & _ & _ & Ht2).
    { eapply advanced_allocated, Hadv. }
    { lia. }
    exists s1, (c', it'), s2. split; [done|]. split.
    + assert (iteration < MAX_ITERATIONS) as Hlt' by lia.
      rewrite (while_loop_step _ _ _ _ _ _ _ Hlt' Hiter). done.
    + destruct Hadv as (_ & _ & Ht1).
      apply Loop_first in Hloop as (t2 & rest & -> & _); [|done].
      rewrite Ht2, Ht1, !modelTurns_app, TurnSpec_modelTurns by done.
      rewrite turns_modelTurns by done. rewrite !length_app. simpl. lia.
Qed.

(** C7: every dispatch races the provider's call against a timeout fixed at
    30 000 ms.  The raced promise always settles, at the latest after
    30 000 ms, so awaiting it never hangs.  When the provider does not
    settle, or settles later than 30 000 ms, the dispatch is rejected with
    "Tool execution timeout after 30000ms"; the call to the provider has
    been made all the same and what it did to the world stays.  When the
    provider settles before 30 000 ms, its outcome is returned
    unchanged. *)
Theorem C7_dispatch_timeout tools toolCall s found args :
  List.find (fun t => String.eqb (name t) (fn_name (tc_function toolCall)))
    tools = Some found ->
  JSON_parse (fn_arguments (tc_function toolCall)) = inl args ->
  let answer :=
    executeTool (world s) (serverId found) (fn_name (tc_function toolCall))
      args in
  TOOL_EXECUTION_TIMEOUT = 30000%N
  ∧ (∃ s',
       executeToolCallWithTimeout toolCall tools s
       = (Ok (Promise_race (fst answer) timeoutPromise), s')
       ∧ world s' = snd answer
       ∧ providerCalls (trace s') =
           providerCalls (trace s)
           ++ [(serverId found, fn_name (tc_function toolCall), args)])
  ∧ (∃ t o, Promise_race (fst answer) timeoutPromise = Settles t o
            ∧ (t <= 30000)%N)
  ∧ (fst answer = Pending
     ∨ (∃ t o, fst answer = Settles t o ∧ (30000 < t)%N) ->
     Promise_race (fst answer) timeoutPromise
     = Settles 30000 (Rejected "Tool execution timeout after 30000ms"))
  ∧ (∀ t o, fst answer = Settles t o -> (t < 30000)%N ->
       Promise_race (fst answer) timeoutPromise = Settles t o)
  ∧ (∀ ch, ∃ s'', executeEach ch tools toolCall s = (Ok tt, s'')).
Proof.
  intros Hfind Hparse answer. split_and!.
  - done.
  - unfold executeToolCallWithTimeout, executeToolCall, mbind, M_bind, record,
      ask, mret, M_ret.
    simpl. rewrite Hfind, Hparse. simpl. fold answer.
    destruct answer as [p w'] eqn:Eanswer. simpl.
    eexists. split_and!; [reflexivity|done|].
    simpl. unfold providerCalls. rewrite !omap_app. simpl.
    by rewrite app_nil_r.
  - destruct (Promise_race_timeout (fst answer)
                (Rejected "Tool execution timeout after 30000ms"))
      as (t & o & Hrace & Hle).
    exists t, o. by rewrite timeoutPromise_eq.
  - rewrite timeoutPromise_eq.
    intros [->|(t & o & -> & Hlate)]; simpl; [done|].
    unfold TOOL_EXECUTION_TIMEOUT.
    by destruct (N.ltb_spec t 30000); [lia|].
  - intros t o -> Hearly. rewrite timeoutPromise_eq. simpl.
    unfold TOOL_EXECUTION_TIMEOUT.
    by destruct (N.ltb_spec t 30000); [|lia].
  - intros ch.
    destruct (executeEach_spec ch tools toolCall s) as (s'' & ? & ? & ? & Hrun & _).
    by exists s''.
Qed.

(** X1: every run whose model streams come to an end returns: it does not
    wait for a provider beyond the timeout, and the loop stops at the
    iteration limit.  It emits [done] exactly once, as its last event. *)
Lemma run_done_once w h messages tools :
  fst (run w h messages tools) = Ok tt
  ∧ ∃ before,
      emitted (snd (run w h messages tools)) = before ++ [EvDone]
      ∧ Forall (fun e => isDoneEvent e = false) before.
Proof.
  destruct (run_spec w h messages tools)
    as (turns & c & it & s' & Hrun & Hloop & Hall & Hheap & Hev & Htr).
  rewrite Hrun. simpl. split; [done|]. rewrite Hev, app_assoc.
  eexists. split; [done|]. apply Forall_app. split.
  - apply Forall_concat, Forall_fmap. eapply Forall_impl; [exact Hall|].
    intros t Ht. by apply turnEvents_not_done.
  - destruct (MAX_ITERATIONS <=? it); by repeat constructor.
Qed.

(** Only the last pass of a loop can end in the [catch]. *)
Lemma Loop_throw_last c it turns c' it' t message :
  Loop c it turns c' it' -> t ∈ turns -> turn_result t = Throw message ->
  last turns = Some t.
Proof.
  induction 1 as [| |it t0 c0 turns c' it' Hlt Hres Hloop IH];
    intros Hin Hthrow.
  - by apply elem_of_nil in Hin.
  - by apply list_elem_of_singleton in Hin as ->.
  - apply elem_of_cons in Hin as [->|Hin]; [congruence|].
    rewrite last_cons, (IH Hin Hthrow). done.
Qed.

Lemma turnEvents_error t :
  TurnSpec t ->
  (Exists (fun e => isErrorEvent e = true) (turnEvents t)
   ↔ ∃ message, turn_result t = Throw message).
Proof.
  intros Hspec.
  assert (Forall (fun e => isErrorEvent e = false) (turn_events t)) as Hnone.
  { destruct Hspec as [? ? ? ? He|? ? ? ? ? He|? ? ? ? ? ? ? ? He]; rewrite He.
    - by apply Forall_fmap, Forall_true.
    - by apply Forall_fmap, Forall_true.
    - apply Forall_app. split; [by apply Forall_fmap, Forall_true|].
      apply Forall_concat.
      generalize (map snd replies). generalize (completedCalls (turn_stream t)).
      intros calls. induction calls as [|c calls IH]; intros [|f fs]; simpl;
        try constructor; [by repeat constructor|apply IH]. }
  unfold turnEvents. rewrite Exists_app. split.
  - intros [Hex|Hex].
    + apply Exists_exists in Hex as (e & He & Herr).
      rewrite Forall_forall in Hnone. by rewrite (Hnone e He) in Herr.
    + destruct (turn_result t); try by apply Exists_nil in Hex. by eexists.
  - intros [message ->]. right. by constructor.
Qed.

Lemma Exists_concat_map {A B} (P : B -> Prop) (f : A -> list B) (l : list A) :
  Exists P (concat (map f l)) -> ∃ x, x ∈ l ∧ Exists P (f x).
Proof.
  induction l as [|x l IH]; simpl; [by intros ?%Exists_nil|].
  rewrite Exists_app. intros [Hx|Hl].
  - exists x. split; [left|done].
  - destruct (IH Hl) as (y & Hy & HP). exists y. split; [by right|done].
Qed.

(** X2: a run emits an error event exactly when the stream of its last
    model turn failed or the run used all ten iterations (whatever the
    tenth turn was). *)
Lemma run_error_events w h messages tools :
  Exists (fun e => isErrorEvent e = true)
    (emitted (snd (run w h messages tools)))
  ↔ (∃ stream message,
       last (modelTurns (trace (snd (run w h messages tools)))) = Some stream
       ∧ failure stream = Some message)
    ∨ length (modelTurns (trace (snd (run w h messages tools)))) = 10%nat.
Proof.
  destruct (run_spec w h messages tools)
    as (turns & c & it & s' & Hrun & Hloop & Hall & Hheap & Hev & Htr).
  rewrite Hrun. simpl. rewrite Htr, turns_modelTurns, length_map by done.
  pose proof (Loop_iterations _ _ _ _ _ Hloop) as Hit. simpl in Hit.
  assert (it <= MAX_ITERATIONS) as Hmax.
  { eapply Loop_bounded; [exact Hloop|]. unfold MAX_ITERATIONS. lia. }
  rewrite Hev, !Exists_app. split.
  - intros [Hex|[Hex|Hex]].
    + left. apply Exists_concat_map in Hex as (t & Ht & Hex).
      rewrite Forall_forall in Hall.
      destruct (proj1 (turnEvents_error t (Hall t Ht)) Hex)
        as [message Hthrow].
      pose proof (Loop_throw_last _ _ _ _ _ _ _ Hloop Ht Hthrow) as Hlast.
      exists (turn_stream t), message. split.
      * apply last_Some in Hlast as [init ->].
        rewrite map_app. simpl. by rewrite last_snoc.
      * destruct (Hall t Ht) as [? Hr Hf|? Hr|? ? Hr]; congruence.
    + right. destruct (Z.leb_spec MAX_ITERATIONS it) as [Hle|Hlt].
      * unfold MAX_ITERATIONS in *. lia.
      * by apply Exists_nil in Hex.
    + apply Exists_cons in Hex as [Hex|Hex]; [done|by apply Exists_nil in Hex].
  - intros [(stream & message & Hlast & Hfail)|Hten].
    + left. destruct (decide (turns = [])) as [->|Hne]; [done|].
      apply last_is_Some in Hne as [t Ht]. apply last_Some in Ht as [init ->].
      rewrite map_app in Hlast. simpl in Hlast. rewrite last_snoc in Hlast.
      injection Hlast as <-.
      apply Forall_app in Hall as [_ Hspec]. apply Forall_inv in Hspec.
      rewrite map_app, concat_app, Exists_app. right. simpl.
      rewrite app_nil_r. apply turnEvents_error; [done|].
      destruct Hspec as [? Hr|? Hr Hf|? ? Hr Hf]; [by eexists|congruence..].
    + right. left. unfold MAX_ITERATIONS in *.
      destruct (Z.leb_spec 10 it) as [Hle|Hlt]; [by constructor|lia].
Qed.

(** C2 fails on the code when the final answer comes on the 10th turn: in
    every run with ten model turns whose last turn ends without a stream
    error and without a tool-call event, the final assistant message is
    appended (the conversation is complete) and still the error event of
    the iteration limit is emitted before [done]. *)
Theorem C2_error_event_after_final_answer w h messages tools stream :
  length (modelTurns (trace (snd (run w h messages tools)))) = 10%nat ->
  last (modelTurns (trace (snd (run w h messages tools)))) = Some stream ->
  failure stream = None ->
  toolCallObserved (chunks stream) = false ->
  fst (run w h messages tools) = Ok tt
  ∧ (∃ before,
       emitted (snd (run w h messages tools))
       = before ++ map EvContent (streamTexts (chunks stream))
         ++ [EvError maxIterationsMessage; EvDone])
  ∧ (∃ earlier a,
       heap (snd (run w h messages tools))
       = <[fresh (dom h) := default [] (h !! messages) ++ earlier ++ [a]]> h
       ∧ role a = assistant ∧ tool_calls a = None).
Proof.
  destruct (run_spec w h messages tools)
    as (turns & c & it & s' & Hrun & Hloop & Hall & Hheap & Hev & Htr).
  rewrite Hrun. simpl. rewrite Htr, turns_modelTurns by done.
  rewrite length_map. intros Hten Hlast Hfail Hobs.
  apply Loop_iterations in Hloop. rewrite Hten in Hloop. simpl in Hloop.
  subst it.
  destruct (decide (turns = [])) as [->|Hne]; [done|].
  apply last_is_Some in Hne as [t Ht]. apply last_Some in Ht as [init ->].
  rewrite map_app in Hlast. simpl in Hlast. rewrite last_snoc in Hlast.
  injection Hlast as <-.
  apply Forall_app in Hall as [_ Hspec]. apply Forall_inv in Hspec.
  pose proof (TurnSpec_final t Hspec Hfail (or_introl Hobs)) as Hres.
  destruct Hspec as [? Hr|now _ _ _ Hmsgs Hevs _|? ? Hr]; try congruence.
  split_and!; [done| |].
  - exists (concat (map turnEvents init)).
    rewrite Hev, map_app, concat_app. simpl. unfold turnEvents at 2.
    rewrite Hres, Hevs, !app_nil_r, <- !app_assoc. done.
  - eexists (concat (map turn_messages init)), _. split.
    + rewrite Hheap, map_app, concat_app. simpl. rewrite Hmsgs, app_nil_r.
      done.
    + unfold turnOutcome. simpl. by rewrite (no_event_no_call _ Hobs).
Qed.

End Claims.

(** * The properties at the scripted runs *)

(** The model evaluated on three scripts: a tool call that succeeds, one
    whose arguments do not parse, and one whose provider never settles. *)
Example oneCall_events :
  emitted (snd (@run Example.oneCall Example.start Example.store
                  Example.messages Example.tools))
  = [EvToolExecutionStart "get_steps" "call_1";
     EvToolExecutionResult "get_steps" "call_1" false;
     EvContent "You walked "; EvContent "42 steps."; EvDone].
Proof. reflexivity. Qed.

Example badArguments_history :
  map (fun m => (role m, content m, tool_call_id m))
    (default [] (heap (snd (@run Example.badArguments Example.start
                              Example.store Example.messages Example.tools))
                 !! fresh (dom Example.store)))
  = [(user, "How many steps?", None);
     (assistant, "", None);
     (tool,
      "Error executing get_steps: Invalid tool arguments: Expected property name or '}' in JSON at position 1",
      Some "call_1");
     (assistant, "You walked 42 steps.", None)].
Proof. reflexivity. Qed.

Example neverAnswers_history :
  map (fun m => (role m, content m, tool_call_id m))
    (default [] (heap (snd (@run Example.neverAnswers Example.start
                              Example.store Example.messages Example.tools))
                 !! fresh (dom Example.store)))
  = [(user, "How many steps?", None);
     (assistant, "", None);
     (tool, "Error executing get_steps: Tool execution timeout after 30000ms",
      Some "call_1");
     (assistant, "You walked 42 steps.", None)].
Proof. reflexivity. Qed.

(** C1 at ten tool turns in a row. *)
Lemma C1_ten_tool_turns :
  length (modelTurns (trace (snd (@run Example.tenToolTurns Example.start
            Example.store Example.messages Example.tools)))) = 10%nat.
Proof.
  apply (@C1_max_turns Example.tenToolTurns Example.start Example.store
           Example.messages Example.tools).
  vm_compute. repeat (constructor; [by split_and!|]). constructor.
Defined.

(** C2 at nine tool turns followed by a final answer. *)
Lemma C2_answer_on_tenth_turn :
  ∃ before,
    emitted (snd (@run Example.answerOnTenth Example.start Example.store
                    Example.messages Example.tools))
    = before ++ map EvContent (streamTexts (chunks Example.finalTurn))
      ++ [EvError maxIterationsMessage; EvDone].
Proof.
  apply (@C2_error_event_after_final_answer Example.answerOnTenth
           Example.start Example.store Example.messages Example.tools
           Example.finalTurn); vm_compute; reflexivity.
Defined.

(** C3, as stated, at a run whose first turn shows a tool-call event but
    completes no call (the fragment carries no id): the loop does not go
    on to a second model turn. *)
Lemma C3_tool_call_event_without_call_ends_run :
  ¬ (∀ stream,
       head (modelTurns (trace (snd (@run Example.nameless Example.start
               Example.store Example.messages Example.tools)))) = Some stream ->
       toolCallObserved (chunks stream) = true ->
       (1 < length (modelTurns (trace (snd (@run Example.nameless
               Example.start Example.store Example.messages
               Example.tools)))))%nat).
Proof.
  intros Hloops. specialize (Hloops Example.namelessTurn eq_refl eq_refl).
  vm_compute in Hloops. lia.
Qed.

(** C3, amended, at the first turn of the run with one tool call. *)
Lemma C3_first_turn_with_call :
  ∃ response s1,
    @accumulateStreamingResponse Example.oneCall Example.messages
      Example.tools (@initial Example.oneCall Example.start Example.store)
    = (Ok response, s1)
    ∧ finishReason response = "tool_calls".
Proof.
  destruct (@C3_turn_classification Example.oneCall Example.messages
              Example.tools (@initial Example.oneCall Example.start
                               Example.store)
              [Example.hello] eq_refl eq_refl)
    as (response & s1 & Hacc & Hclass & _).
  exists response, s1. split; [exact Hacc|]. apply Hclass. reflexivity.
Defined.

(** C6, as stated, at a provider that returns an error result: the result
    event is flagged, but the tool message is the text of the result as it
    is; it does not name the tool. *)
Lemma C6_error_result_is_passed_on :
  fst (@executeTool Example.errorResult (1%nat, 1001) "garmin" "get_steps"
         "{}")
  = Settles 5 (Fulfilled Example.rateLimited)
  ∧ isError Example.rateLimited = Some true
  ∧ map (fun m => (role m, content m, tool_call_id m))
      (default [] (heap (snd (@run Example.errorResult Example.start
                                Example.store Example.messages Example.tools))
                   !! fresh (dom Example.store)))
    = [(user, "How many steps?", None);
       (assistant, "", None);
       (tool, "Rate limit exceeded", Some "call_1");
       (assistant, "You walked 42 steps.", None)]
  ∧ emitted (snd (@run Example.errorResult Example.start Example.store
                    Example.messages Example.tools))
    = [EvToolExecutionStart "get_steps" "call_1";
       EvToolExecutionResult "get_steps" "call_1" true;
       EvContent "You walked "; EvContent "42 steps."; EvDone]
  ∧ ¬ (∀ m,
         m ∈ default [] (heap (snd (@run Example.errorResult Example.start
                                      Example.store Example.messages
                                      Example.tools))
                         !! fresh (dom Example.store)) ->
         role m = tool -> includes (content m) "get_steps" = true).
Proof.
  split_and!; [reflexivity..|].
  intros Hnamed.
  specialize (Hnamed {| role := tool; content := "Rate limit exceeded";
                        tool_calls := None; tool_call_id := Some "call_1";
                        timestamp := 1001 |}).
  assert (includes "Rate limit exceeded" "get_steps" = true) as Hincl.
  { apply Hnamed; [|reflexivity]. vm_compute. do 2 right. left. }
  vm_compute in Hincl. discriminate Hincl.
Qed.

(** C6, amended, at a call whose argument text is "{invalid". *)
Lemma C6_invalid_arguments :
  ∃ s' m,
    @executeEach Example.badArguments Example.messages Example.tools
      (Example.getSteps "{invalid")
      (@initial Example.badArguments Example.start Example.store)
    = (Ok tt, s')
    ∧ heap s' = <[Example.messages := [Example.hello] ++ [m]]> Example.store
    ∧ role m = tool
    ∧ content m =
        "Error executing get_steps: Invalid tool arguments: Expected property name or '}' in JSON at position 1"
    ∧ tool_call_id m = Some "call_1"
    ∧ emitted s' =
        [EvToolExecutionStart "get_steps" "call_1";
         EvToolExecutionResult "get_steps" "call_1" true].
Proof.
  destruct (@C6_tool_failure_is_reported Example.badArguments
              Example.messages Example.tools (Example.getSteps "{invalid")
              (@initial Example.badArguments Example.start Example.store)
              [Example.hello]
              "Error executing get_steps: Invalid tool arguments: Expected property name or '}' in JSON at position 1"
              eq_refl)
    as [(s' & m & Hrun & Hheap & Hrole & Hcontent & Hid & Hev & _) _].
  - left.
    exists "Invalid tool arguments: Expected property name or '}' in JSON at position 1".
    split; [|reflexivity].
    eapply (@InvalidArguments Example.badArguments); reflexivity.
  - exists s', m.
    split_and!; [exact Hrun|exact Hheap|exact Hrole|exact Hcontent|exact Hid
                |exact Hev].
Defined.

(** C7 at a provider that never settles. *)
Lemma C7_provider_never_settles :
  Promise_race
    (fst (@executeTool Example.neverAnswers Example.start "garmin"
            "get_steps" "{}"))
    (@timeoutPromise Example.neverAnswers)
  = Settles 30000 (Rejected "Tool execution timeout after 30000ms").
Proof.
  destruct (@C7_dispatch_timeout Example.neverAnswers Example.tools
              (Example.getSteps "{}")
              (@initial Example.neverAnswers Example.start Example.store)
              {| name := "get_steps"; description := "Daily steps";
                 inputSchema := "{}"; serverId := "garmin" |}
              "{}" eq_refl eq_refl)
    as (_ & _ & _ & Hlate & _).
  apply Hlate. left. reflexivity.
Defined.

(** C8, as stated, at a run whose first turn is a final answer: one
    message is appended, not two. *)
Lemma C8_one_message_not_two :
  head (modelTurns (trace (snd (@run Example.answerAtOnce Example.start
          Example.store Example.messages Example.tools))))
  = Some Example.finalTurn
  ∧ toolCallObserved (chunks Example.finalTurn) = false
  ∧ ¬ (∃ m1 m2,
         heap (snd (@run Example.answerAtOnce Example.start Example.store
                      Example.messages Example.tools))
         !! fresh (dom Example.store)
         = Some ([Example.hello] ++ [m1; m2])).
Proof.
  split_and!; [reflexivity..|].
  intros (m1 & m2 & Hlookup). vm_compute in Hlookup. discriminate Hlookup.
Qed.

(** C8, amended, at the same run. *)
Lemma C8_answer_at_once :
  emitted (snd (@run Example.answerAtOnce Example.start Example.store
                  Example.messages Example.tools))
  = map EvContent (streamTexts (chunks Example.finalTurn)) ++ [EvDone].
Proof.
  apply (@C8_final_answer_first Example.answerAtOnce Example.start
           Example.store Example.messages Example.tools Example.finalTurn);
    reflexivity.
Defined.

(** C9 at a run with one tool call and then a final answer: the tool
    message carries the text of the provider's result. *)
Lemma C9_one_call_then_answer :
  map (fun m => (role m, content m, tool_calls m, tool_call_id m))
    (default [] (heap (snd (@run Example.oneCall Example.start Example.store
                              Example.messages Example.tools))
                 !! fresh (dom Example.store)))
  = [(user, "How many steps?", None, None);
     (assistant, "", Some [Example.getSteps "{}"], None);
     (tool, "42", None, Some "call_1");
     (assistant, "You walked 42 steps.", None, None)]
  ∧ emitted (snd (@run Example.oneCall Example.start Example.store
                    Example.messages Example.tools))
    = [EvToolExecutionStart "get_steps" "call_1";
       EvToolExecutionResult "get_steps" "call_1" false;
       EvContent "You walked "; EvContent "42 steps."; EvDone]
  ∧ @providerCalls Example.oneCall
      (trace (snd (@run Example.oneCall Example.start Example.store
                     Example.messages Example.tools)))
    = [("garmin", "get_steps", "{}")].
Proof.
  destruct (@C9_one_tool_call_then_answer Example.oneCall Example.start
              Example.store Example.messages Example.tools
              (Example.toolTurn "{}") Example.finalTurn
              (Example.getSteps "{}")
              eq_refl eq_refl eq_refl eq_refl eq_refl eq_refl eq_refl)
    as (_ & (atDispatch & t & outcome & afterDispatch & now1 & now2 & now3
             & _ & -> & Hworld & Htrace & Hexec & -> & Hheap & _ & _ & Hev
             & Hcalls) & _).
  destruct atDispatch as [wD hD eD tD]. simpl in Hworld, Htrace. subst wD tD.
  vm_compute in Hexec. injection Hexec as <- <- <-.
  rewrite Hheap, Hev, Hcalls, lookup_insert_eq.
  split_and!; vm_compute; reflexivity.
Defined.

(** C10 at the same run. *)
Lemma C10_input_kept :
  heap (snd (@run Example.oneCall Example.start Example.store
               Example.messages Example.tools)) !! Example.messages
  = Some [Example.hello].
Proof.
  apply (@C10_input_not_mutated Example.oneCall Example.start Example.store
           Example.messages Example.tools [Example.hello]).
  reflexivity.
Defined.

(** * Further properties of the orchestrator *)

Section More.
Context `{Runtime}.

(** The loop again, now with the transcript each pass starts from. *)
Lemma while_loop_histories ch tools fuel continueLoop iteration s hist :
  heap s !! ch = Some hist ->
  MAX_ITERATIONS - iteration <= Z.of_nat fuel ->
  ∃ turns continueLoop' iteration' s',
    while_loop fuel ch tools continueLoop iteration s
      = (Ok (continueLoop', iteration'), s')
    ∧ Loop continueLoop iteration turns continueLoop' iteration'
    ∧ Forall TurnSpec turns
    ∧ Histories hist turns
    ∧ advanced ch s s' (concat (map turn_messages turns))
        (concat (map turnEvents turns))
        (concat (map (turnInteractions tools) turns)).
Proof.
  revert continueLoop iteration s hist.
  induction fuel as [|fuel IH]; intros c it s hist Hhist Hfuel.
  - exists [], c, it, s. simpl.
    destruct (c && (it <? MAX_ITERATIONS)) eqn:Econd.
    { apply andb_true_iff in Econd as [_ Hlt%Z.ltb_lt]. lia. }
    split_and!; [done|by constructor|constructor|done|].
    apply advanced_refl. by eexists.
  - destruct (c && (it <? MAX_ITERATIONS)) eqn:Econd.
    + apply andb_true_iff in Econd as [-> Hlt%Z.ltb_lt].
      destruct (iterate_spec ch tools s hist Hhist)
        as (t & s1 & Hrun & Hth & _ & Hspec & Hadv).
      rewrite (while_loop_step _ _ _ _ _ _ _ Hlt Hrun).
      destruct (TurnSpec_result t Hspec) as [[message Hres]|[c' Hres]];
        rewrite Hres.
      * eexists [t], true, (it + 1), _. split; [reflexivity|].
        split_and!; [by eapply loop_break|by constructor|done|].
        destruct Hadv as (Hh & He & Ht). unfold advanced, turnEvents.
        simpl. rewrite Hres, !app_nil_r, Hh, He, Ht.
        by rewrite <- app_assoc.
      * assert (heap s1 !! ch = Some (hist ++ turn_messages t)) as Hhist1.
        { destruct Hadv as (-> & _). by rewrite lookup_insert_eq, Hhist. }
        destruct (IH c' (it + 1) s1 _ Hhist1)
          as (turns & c'' & it' & s2 & Hrest & Hloop & Hall & Hchain & Hadv2);
          [lia|].
        rewrite Hrest. exists (t :: turns), c'', it', s2.
        split_and!; [done|by eapply loop_next|by constructor|done|].
        assert (Hev : turnEvents t = turn_events t).
        { unfold turnEvents. by rewrite Hres, app_nil_r. }
        simpl. rewrite Hev.
        apply (advanced_trans _ _ _ _ _ _ _ _ _ _ Hadv Hadv2).
    + exists [], c, it, s. simpl. rewrite Econd.
      split_and!; [by destruct fuel|by constructor|constructor|done|].
      apply advanced_refl. by eexists.
Qed.

Lemma run_histories w h messages tools :
  ∃ turns continueLoop iteration s',
    run w h messages tools = (Ok tt, s')
    ∧ Loop true 0 turns continueLoop iteration
    ∧ Forall TurnSpec turns
    ∧ Histories (default [] (h !! messages)) turns
    ∧ heap s' =
        <[fresh (dom h) := default [] (h !! messages)
                           ++ concat (map turn_messages turns)]> h
    ∧ emitted s' =
        concat (map turnEvents turns)
        ++ (if MAX_ITERATIONS <=? iteration
            then [EvError maxIterationsMessage] else [])
        ++ [EvDone]
    ∧ trace s' = concat (map (turnInteractions tools) turns).
Proof.
  unfold run, chatWithTools, initial.
  bind_step. unfold spread at 1. bind_step.
  match goal with
  | |- context [while_loop ?f ?ch ?t ?c ?i ?st] =>
      destruct (while_loop_histories ch t f c i st (default [] (h !! messages)))
        as (turns & c' & it' & s1 & Hrun & Hloop & Hall & Hchain & Hh & He & Ht)
  end.
  { simpl. by rewrite lookup_insert_eq. }
  { simpl. unfold MAX_ITERATIONS. lia. }
  rewrite Hrun. simpl in *.
  rewrite lookup_insert_eq, insert_insert_eq in Hh. simpl in Hh.
  exists turns, c', it'.
  destruct (MAX_ITERATIONS <=? it') eqn:Emax;
    unfold mbind, M_bind, yield, mret, M_ret; simpl;
    eexists; (split; [reflexivity|]); simpl;
    rewrite ?He, ?Ht, ?Hh, <- ?app_assoc; split_and!; done.
Qed.

(** A pass that is not the last one executed tools. *)
Lemma Loop_not_last c it turns c' it' k t :
  Loop c it turns c' it' -> turns !! k = Some t -> is_Some (turns !! S k) ->
  turn_result t = Ok true.
Proof.
  intros Hloop. revert k.
  induction Hloop as [| |it t0 c0 turns c' it' Hlt Hres Hloop IH];
    intros k Hk [t' Hnext].
  - done.
  - by destruct k.
  - destruct k as [|k]; simpl in *.
    + injection Hk as ->. destruct c0; [done|].
      apply Loop_stopped in Hloop as (-> & _). done.
    + apply (IH k Hk). by eexists.
Qed.

(** A pass that ended in the [catch] is the last one. *)
Lemma Loop_throw_at c it turns c' it' k t message :
  Loop c it turns c' it' -> turns !! k = Some t ->
  turn_result t = Throw message ->
  length turns = S k.
Proof.
  intros Hloop Hk Hthrow.
  destruct (turns !! S k) as [t'|] eqn:Hnext.
  - rewrite (Loop_not_last _ _ _ _ _ _ _ Hloop Hk) in Hthrow by by eexists.
    done.
  - apply lookup_ge_None in Hnext. apply lookup_lt_Some in Hk. lia.
Qed.

Lemma Histories_step hist turns k t t' :
  Histories hist turns -> turns !! k = Some t -> turns !! S k = Some t' ->
  turn_history t' = turn_history t ++ turn_messages t.
Proof.
  revert hist k. induction turns as [|t0 turns IH]; intros hist k Hchain Hk Hk';
    [done|].
  destruct Hchain as [Hh Hchain]. destruct k as [|k]; simpl in *.
  - injection Hk as ->. destruct turns as [|t1 turns]; [done|].
    simpl in Hk'. injection Hk' as ->. destruct Hchain as [-> _].
    by rewrite Hh.
  - by apply (IH _ k Hchain).
Qed.

Lemma no_model_call (l : list Interaction) :
  modelTurns l = [] -> modelHistories l = [] ∧ modelCatalogs l = [].
Proof.
  induction l as [|i l IH]; [done|]. destruct i; simpl; try done; apply IH.
Qed.

Lemma TurnSpec_calls t : TurnSpec t -> modelTurns (turn_calls t) = [].
Proof.
  destruct 1 as [? ? ? ? ? Hc|? ? ? ? ? ? Hc|? ? ? ? ? ? ? ? ? Hc ?];
    [by rewrite Hc|by rewrite Hc|done].
Qed.

Lemma turns_modelHistories tools turns :
  Forall TurnSpec turns ->
  modelHistories (concat (map (turnInteractions tools) turns))
  = map turn_history turns.
Proof.
  induction 1 as [|t turns Ht _ IH]; [done|].
  cbn [map concat].
  assert (∀ a b : list Interaction,
            modelHistories (a ++ b) = modelHistories a ++ modelHistories b)
    as Happ by (intros; apply omap_app).
  rewrite Happ, IH. unfold turnInteractions.
  change (modelHistories (CalledChatStream (turn_history t) tools
                            (turn_stream t) :: turn_calls t))
    with (turn_history t :: modelHistories (turn_calls t)).
  destruct (no_model_call _ (TurnSpec_calls t Ht)) as [Hh _].
  by rewrite Hh.
Qed.

Lemma turns_modelCatalogs tools turns :
  Forall TurnSpec turns ->
  modelCatalogs (concat (map (turnInteractions tools) turns))
  = map (fun _ => tools) turns.
Proof.
  induction 1 as [|t turns Ht _ IH]; [done|].
  cbn [map concat].
  assert (∀ a b : list Interaction,
            modelCatalogs (a ++ b) = modelCatalogs a ++ modelCatalogs b)
    as Happ by (intros; apply omap_app).
  rewrite Happ, IH. unfold turnInteractions.
  change (modelCatalogs (CalledChatStream (turn_history t) tools
                           (turn_stream t) :: turn_calls t))
    with (tools :: modelCatalogs (turn_calls t)).
  destruct (no_model_call _ (TurnSpec_calls t Ht)) as [_ Hc].
  by rewrite Hc.
Qed.

(** ** How many model turns, and when another one follows *)

(** X3: the loop is stopped by its own guard.  Entered with
    [continueLoop = true] and [iteration = 0] it returns, whatever fuel at
    or above ten passes it is given, after at least one and at most ten
    model invocations, and the counter [iteration] it returns is the number
    of these invocations.  So does the run: it returns, with between one
    and ten model invocations. *)
Theorem run_model_invocations_bounded w h messages tools fuel :
  (Z.to_nat MAX_ITERATIONS <= fuel)%nat ->
  (∃ continueLoop iteration s,
     while_loop fuel (fresh (dom h)) tools true 0
       {| world := w;
          heap := <[fresh (dom h) := default [] (h !! messages)]> h;
          emitted := []; trace := [] |}
     = (Ok (continueLoop, iteration), s)
     ∧ iteration = Z.of_nat (length (modelTurns (trace s)))
     ∧ (1 <= length (modelTurns (trace s)) <= 10)%nat)
  ∧ fst (run w h messages tools) = Ok tt
  ∧ (1 <= length (modelTurns (trace (snd (run w h messages tools)))) <= 10)%nat.
Proof.
  intros Hfuel.
  assert (∃ continueLoop iteration s,
            while_loop fuel (fresh (dom h)) tools true 0
              {| world := w;
                 heap := <[fresh (dom h) := default [] (h !! messages)]> h;
                 emitted := []; trace := [] |}
            = (Ok (continueLoop, iteration), s)
            ∧ iteration = Z.of_nat (length (modelTurns (trace s)))
            ∧ (1 <= length (modelTurns (trace s)) <= 10)%nat) as Hloop.
  { match goal with
    | |- context [while_loop ?f ?ch ?t ?c ?i ?st] =>
        destruct (while_loop_spec ch t f c i st)
          as (turns & c' & it' & s1 & Hrun & Hloop & Hall & _ & _ & Ht)
    end.
    { simpl. rewrite lookup_insert_eq. by eexists. }
    { unfold MAX_ITERATIONS in *. lia. }
    exists c', it', s1. split; [exact Hrun|].
    simpl in Ht. rewrite Ht, turns_modelTurns, length_map by done.
    pose proof (Loop_iterations _ _ _ _ _ Hloop) as Hit.
    pose proof (Loop_bounded _ _ _ _ _ Hloop) as Hmax.
    apply Loop_first in Hloop as (t & rest & -> & _);
      unfold MAX_ITERATIONS in *; simpl in *; lia. }
  split; [exact Hloop|].
  destruct Hloop as (c & it & s & Hrun & _ & Hbound).
  rewrite run_eq.
  rewrite (while_loop_fuel _ _ (Z.to_nat MAX_ITERATIONS) fuel), Hrun;
    [done|unfold MAX_ITERATIONS in *; lia..].
Qed.

(** X4: the model is invoked again only after a turn whose stream ended
    without an error, showed a tool-call event and completed at least one
    call. *)
Theorem model_invoked_again_only_after_tools w h messages tools k stream :
  modelTurns (trace (snd (run w h messages tools))) !! k = Some stream ->
  is_Some (modelTurns (trace (snd (run w h messages tools))) !! S k) ->
  failure stream = None
  ∧ toolCallObserved (chunks stream) = true
  ∧ completedCalls stream ≠ [].
Proof.
  destruct (run_spec w h messages tools)
    as (turns & c & it & s' & Hrun & Hloop & Hall & _ & _ & Htr).
  rewrite Hrun. simpl. rewrite Htr, turns_modelTurns by done.
  intros Hk [next Hnext].
  change (map turn_stream turns) with (turn_stream <$> turns) in *.
  apply list_lookup_fmap_Some in Hk as (t & -> & Hk).
  apply list_lookup_fmap_Some in Hnext as (t' & _ & Hnext).
  pose proof (Loop_not_last _ _ _ _ _ _ _ Hloop Hk (mk_is_Some _ _ Hnext))
    as Hres.
  rewrite Forall_forall in Hall.
  destruct (Hall t (list_elem_of_lookup_2 _ _ _ Hk))
    as [? Hr|? Hr|? ? ? Hfail Hobs Hcalls]; [congruence..|done].
Qed.

Lemma Histories_last hist init t :
  Histories hist (init ++ [t]) ->
  turn_history t = hist ++ concat (map turn_messages init).
Proof.
  revert hist. induction init as [|t0 init IH]; intros hist; simpl.
  - intros [-> _]. by rewrite app_nil_r.
  - intros [_ Hchain]. rewrite (IH _ Hchain). by rewrite app_assoc.
Qed.

(** X5: when the stream of a model turn fails, that turn is the last one:
    the texts it produced before the failure have been emitted, the error
    event carries the message of the failure, the turn appends no message
    (the final transcript is the one this model call was given), and after
    the error event only [done] follows, preceded by the iteration-limit
    error when the failed turn was the tenth. *)
Theorem stream_failure_ends_run w h messages tools k stream message :
  modelTurns (trace (snd (run w h messages tools))) !! k = Some stream ->
  failure stream = Some message ->
  length (modelTurns (trace (snd (run w h messages tools)))) = S k
  ∧ (∃ before,
       emitted (snd (run w h messages tools))
       = before ++ map EvContent (streamTexts (chunks stream))
         ++ EvError message
            :: (if bool_decide (k = 9%nat)
                then [EvError maxIterationsMessage] else [])
         ++ [EvDone])
  ∧ (∃ history,
       modelHistories (trace (snd (run w h messages tools))) !! k
       = Some history
       ∧ heap (snd (run w h messages tools)) = <[fresh (dom h) := history]> h).
Proof.
  destruct (run_histories w h messages tools)
    as (turns & c & it & s' & Hrun & Hloop & Hall & Hchain & Hheap & Hev & Htr).
  rewrite Hrun. simpl.
  rewrite Htr, turns_modelTurns, turns_modelHistories, length_map by done.
  intros Hk Hfail.
  change (map turn_stream turns) with (turn_stream <$> turns) in *.
  apply list_lookup_fmap_Some in Hk as (t & -> & Hk).
  pose proof Hall as Hall'. rewrite Forall_forall in Hall'.
  pose proof (Hall' t (list_elem_of_lookup_2 _ _ _ Hk)) as Hspec.
  destruct Hspec as [m Hres Hf Hmsgs Hevs _|? ? Hf|? ? ? Hf]; try congruence.
  assert (m = message) as -> by congruence.
  pose proof (Loop_throw_at _ _ _ _ _ _ _ _ Hloop Hk Hres) as Hlen.
  pose proof (Loop_iterations _ _ _ _ _ Hloop) as Hit. simpl in Hit.
  assert (∃ init, turns = init ++ [t]) as [init ->].
  { apply last_Some. rewrite last_lookup, Hlen. exact Hk. }
  split_and!; [done| |].
  - exists (concat (map turnEvents init)).
    rewrite Hev, map_app, concat_app. simpl. unfold turnEvents at 2.
    rewrite Hres, Hevs, app_nil_r, <- !app_assoc. simpl.
    do 3 f_equal. rewrite Hit, Hlen. unfold MAX_ITERATIONS.
    case_bool_decide as Hnine.
    + subst k. done.
    + destruct (Z.leb_spec 10 (0 + Z.of_nat (S k))) as [Hle|Hlt]; [|done].
      exfalso. apply Loop_bounded in Hloop; unfold MAX_ITERATIONS in *; lia.
  - exists (turn_history t). split.
    + change (map turn_history (init ++ [t]))
        with (turn_history <$> (init ++ [t])).
      by rewrite list_lookup_fmap, Hk.
    + rewrite Hheap, map_app, concat_app. simpl.
      rewrite Hmsgs, !app_nil_r, (Histories_last _ _ _ Hchain). done.
Qed.

(** X10: the first model call is given the caller's messages, every model
    call is given the caller's tool catalog, and each later model call is
    given the transcript of the call before it extended by that turn's
    assistant message, which carries the completed calls, and by the tool
    messages answering these calls in order. *)
Theorem model_sees_growing_transcript w h messages tools :
  head (modelHistories (trace (snd (run w h messages tools))))
  = Some (default [] (h !! messages))
  ∧ Forall (fun catalog => catalog = tools)
      (modelCatalogs (trace (snd (run w h messages tools))))
  ∧ ∀ k stream history history',
      modelTurns (trace (snd (run w h messages tools))) !! k = Some stream ->
      modelHistories (trace (snd (run w h messages tools))) !! k
        = Some history ->
      modelHistories (trace (snd (run w h messages tools))) !! S k
        = Some history' ->
      ∃ a replies,
        history' = history ++ a :: replies
        ∧ role a = assistant
        ∧ tool_calls a = Some (completedCalls stream)
        ∧ Forall2 answers (completedCalls stream) replies.
Proof.
  destruct (run_histories w h messages tools)
    as (turns & c & it & s' & Hrun & Hloop & Hall & Hchain & Hheap & Hev & Htr).
  rewrite Hrun. simpl.
  rewrite Htr, turns_modelTurns, turns_modelHistories, turns_modelCatalogs
    by done.
  split_and!.
  - apply Loop_first in Hloop as (t & rest & -> & _);
      [|unfold MAX_ITERATIONS; lia].
    simpl. by destruct Hchain as [-> _].
  - clear. induction turns; by constructor.
  - intros k stream history history' Hs Hk Hk'.
    change (map turn_stream turns) with (turn_stream <$> turns) in *.
    change (map turn_history turns) with (turn_history <$> turns) in *.
    apply list_lookup_fmap_Some in Hs as (t & -> & Ht).
    apply list_lookup_fmap_Some in Hk as (t0 & -> & Ht0).
    assert (t0 = t) as -> by congruence.
    apply list_lookup_fmap_Some in Hk' as (t' & -> & Ht').
    rewrite (Histories_step _ _ _ _ _ Hchain Ht Ht').
    pose proof (Loop_not_last _ _ _ _ _ _ _ Hloop Ht (mk_is_Some _ _ Ht'))
      as Hres.
    rewrite Forall_forall in Hall.
    destruct (Hall t (list_elem_of_lookup_2 _ _ _ Ht))
      as [? Hr|? Hr|now replies _ _ _ Hne Hans Hmsgs _ _ _]; try congruence.
    exists (assistantMessage (turnOutcome (turn_stream t) now)), (map fst replies).
    split_and!; [by rewrite Hmsgs|done| |].
    + unfold turnOutcome. simpl. by destruct (completedCalls (turn_stream t)).
    + clear -Hans. induction Hans; simpl; by constructor.
Qed.

(** ** Events, dispatches and appended messages *)

Lemma filter_tool_events_texts (texts : list string) :
  List.filter isToolEvent (map EvContent texts) = [].
Proof. induction texts; [done|]. simpl. done. Qed.

Lemma filter_tool_events_pairs (calls : list ToolCall) (flags : list bool) :
  List.filter isToolEvent (concat (zip_with toolEvents calls flags))
  = concat (zip_with toolEvents calls flags).
Proof.
  revert flags. induction calls as [|c calls IH]; intros [|f flags]; try done.
  simpl. by rewrite IH.
Qed.

Lemma zip_with_toolEvents_app (c1 c2 : list ToolCall) (f1 f2 : list bool) :
  length f1 = length c1 ->
  zip_with toolEvents (c1 ++ c2) (f1 ++ f2)
  = zip_with toolEvents c1 f1 ++ zip_with toolEvents c2 f2.
Proof.
  revert f1. induction c1 as [|c c1 IH]; intros [|f f1] Hlen; try done.
  simpl. rewrite IH; [done|]. by injection Hlen.
Qed.

Lemma turn_tool_events tools t :
  TurnSpec t ->
  ∃ flags,
    length flags = length (dispatches (turnInteractions tools t))
    ∧ List.filter isToolEvent (turnEvents t)
      = concat (zip_with toolEvents (dispatches (turnInteractions tools t))
                  flags).
Proof.
  intros Hspec. pose proof (TurnSpec_dispatches tools t Hspec) as Hd.
  unfold turnEvents.
  destruct Hspec as [? Hr ? ? He|? Hr ? ? ? He|? replies Hr ? ? ? Hans ? He];
    rewrite Hr in *; rewrite Hd, He, !List.filter_app,
      ?filter_tool_events_texts; simpl.
  - by exists [].
  - by exists [].
  - exists (map snd replies). split.
    + rewrite length_map. symmetry. by eapply Forall2_length.
    + by rewrite filter_tool_events_pairs, app_nil_r.
Qed.

(** X6: the tool events of a run pair up with its dispatches: taken in
    order, they are, for each dispatched call, one start event and then one
    result event, both with the name and the id of that call. *)
Theorem tool_events_pair_up w h messages tools :
  ∃ flags,
    length flags
    = length (dispatches (trace (snd (run w h messages tools))))
    ∧ List.filter isToolEvent (emitted (snd (run w h messages tools)))
      = concat (zip_with toolEvents
                  (dispatches (trace (snd (run w h messages tools)))) flags).
Proof.
  destruct (run_spec w h messages tools)
    as (turns & c & it & s' & Hrun & _ & Hall & _ & Hev & Htr).
  rewrite Hrun. simpl. rewrite Hev, Htr, !List.filter_app.
  assert (List.filter isToolEvent
            (if MAX_ITERATIONS <=? it
             then [EvError maxIterationsMessage] else []) = []) as ->
    by by destruct (MAX_ITERATIONS <=? it).
  simpl. rewrite app_nil_r. clear -Hall.
  induction Hall as [|t turns Ht _ (flags & Hlen & IH)].
  - by exists [].
  - destruct (turn_tool_events tools t Ht) as (flags0 & Hlen0 & Hevs).
    exists (flags0 ++ flags). cbn [map concat].
    rewrite dispatches_app, List.filter_app, !length_app, Hlen0, Hlen, Hevs, IH.
    split; [done|].
    by rewrite zip_with_toolEvents_app, concat_app.
Qed.

Lemma final_answer_without_calls stream :
  toolCallObserved (chunks stream) = false ∨ completedCalls stream = [] ->
  completedCalls stream = [].
Proof. intros [Hobs|Hnone]; [by apply no_event_no_call|done]. Qed.

Lemma Forall2_answers_replies (calls : list ToolCall)
    (replies : list (Message * bool)) :
  Forall2 (fun c reply => answers c (fst reply)) calls replies ->
  Forall2 answers calls (map fst replies).
Proof. induction 1; simpl; by constructor. Qed.

(** X7: the messages a run appends to the transcript are assistant
    messages, and each assistant message that carries tool calls is followed
    at once by the tool messages that answer its calls, one per call and in
    the order of the calls; no tool call is left unanswered and no tool
    message stands alone. *)
Theorem appended_messages_answered w h messages tools :
  ∃ appended,
    heap (snd (run w h messages tools))
    = <[fresh (dom h) := default [] (h !! messages) ++ appended]> h
    ∧ Answered appended.
Proof.
  destruct (run_spec w h messages tools)
    as (turns & c & it & s' & Hrun & _ & Hall & Hheap & _ & _).
  rewrite Hrun. simpl. eexists. split; [exact Hheap|]. clear -Hall.
  induction Hall as [|t turns Ht _ IH]; [constructor|].
  cbn [map concat].
  destruct Ht as [? _ _ Hm|now _ _ Hfinal Hm|now replies _ _ _ Hne Hans Hm].
  - by rewrite Hm.
  - rewrite Hm. simpl. apply answered_plain; [done| |done].
    simpl. by rewrite (final_answer_without_calls _ Hfinal).
  - rewrite Hm. simpl.
    apply (answered_calls _ (completedCalls (turn_stream t))); try done.
    + simpl. by destruct (completedCalls (turn_stream t)).
    + by apply Forall2_answers_replies.
Qed.

(** X9: the calls a run dispatches are the completed calls of the streams
    that ended without an error, each dispatched once, stream by stream and
    in the order of the finalized list; the calls of a stream that failed
    are never dispatched. *)
Theorem dispatches_are_completed_calls w h messages tools :
  dispatches (trace (snd (run w h messages tools)))
  = concat (map (fun stream => match failure stream with
                               | None => completedCalls stream
                               | Some _ => []
                               end)
              (modelTurns (trace (snd (run w h messages tools))))).
Proof.
  destruct (run_spec w h messages tools)
    as (turns & c & it & s' & Hrun & _ & Hall & _ & _ & Htr).
  rewrite Hrun. simpl. rewrite Htr, turns_modelTurns by done. clear -Hall.
  induction Hall as [|t turns Ht _ IH]; [done|].
  cbn [map concat]. rewrite dispatches_app, IH. f_equal.
  rewrite (TurnSpec_dispatches tools t Ht).
  destruct Ht as [? Hr Hf|? Hr Hf Hfinal|? ? Hr Hf]; rewrite Hr, Hf; try done.
  by rewrite (final_answer_without_calls _ Hfinal).
Qed.

(** X8: a run appends one assistant message for each model turn whose
    stream ended without an error and one tool message for each dispatched
    call, and nothing else. *)
Theorem appended_messages_count w h messages tools :
  ∃ appended,
    heap (snd (run w h messages tools))
    = <[fresh (dom h) := default [] (h !! messages) ++ appended]> h
    ∧ length appended
      = (length (List.filter (fun stream => bool_decide (failure stream = None))
                   (modelTurns (trace (snd (run w h messages tools)))))
         + length (dispatches (trace (snd (run w h messages tools)))))%nat.
Proof.
  destruct (run_spec w h messages tools)
    as (turns & c & it & s' & Hrun & _ & Hall & Hheap & _ & Htr).
  rewrite Hrun. simpl. eexists. split; [exact Hheap|].
  rewrite Htr, turns_modelTurns by done. clear -Hall.
  induction Hall as [|t turns Ht _ IH]; [done|].
  cbn [map concat List.filter]. rewrite dispatches_app, !length_app, IH.
  rewrite (TurnSpec_dispatches tools t Ht).
  destruct Ht as [? Hr Hf Hm|? Hr Hf Hfinal Hm|? replies Hr Hf _ _ Hans Hm];
    rewrite Hr, Hf, Hm; simpl; [lia|lia|].
  rewrite length_map, (Forall2_length _ _ _ Hans). lia.
Qed.

(** ** Finalized calls and single dispatches *)

(** X11: whatever the accumulator holds, every finalized call has a
    non-empty id, a non-empty name and a non-empty argument text: no
    half-built call leaves the accumulator. *)
Theorem finalized_calls_wellFormed (buffer : list (Z * PartialToolCall)) :
  Forall wellFormed (finalizeToolCalls buffer).
Proof.
  unfold finalizeToolCalls. apply Forall_forall. intros c Hc.
  apply list_elem_of_In, in_map_iff in Hc as (r & <- & Hr).
  apply filter_In in Hr as [_ Hcomplete].
  apply isComplete_iff in Hcomplete as [[i Hi] [n Hn]].
  apply truthy_Some in Hi as [Hi Hi']. apply truthy_Some in Hn as [Hn Hn'].
  unfold wellFormed, toToolCall. simpl. rewrite Hi, Hn. simpl.
  split_and!; [done..|].
  destruct (truthy (fn_arguments <$> p_function r)) as [a|] eqn:Ea; simpl;
    [|done].
  by apply truthy_Some in Ea as [_ ?].
Qed.

(** X12: a call that names a tool missing from the catalog, or whose
    argument text does not parse, is rejected at once and never reaches a
    provider: the world is left as it was and the only thing recorded is the
    dispatch itself.  The catalog is consulted first, so an unknown name is
    reported whatever the arguments are. *)
Theorem rejected_before_provider tools toolCall s :
  List.find (fun t => String.eqb (name t) (fn_name (tc_function toolCall)))
    tools = None
  ∨ (∃ message,
       JSON_parse (fn_arguments (tc_function toolCall)) = inr message) ->
  ∃ message,
    executeToolCallWithTimeout toolCall tools s
    = (Ok (Settles 0 (Rejected message)),
       {| world := world s; heap := heap s; emitted := emitted s;
          trace := trace s ++ [Dispatched toolCall] |})
    ∧ (List.find (fun t => String.eqb (name t)
                             (fn_name (tc_function toolCall))) tools = None ->
       message
       = "Tool '" +:+ fn_name (tc_function toolCall) +:+ "' not found")
    ∧ (∀ found reason,
         List.find (fun t => String.eqb (name t)
                               (fn_name (tc_function toolCall))) tools
         = Some found ->
         JSON_parse (fn_arguments (tc_function toolCall)) = inr reason ->
         message = "Invalid tool arguments: " +:+ reason).
Proof.
  intros Hwhy.
  unfold executeToolCallWithTimeout, executeToolCall, mbind, M_bind, record,
    ask, mret, M_ret.
  simpl. destruct (find _ tools) as [found|] eqn:Efind; simpl.
  - destruct Hwhy as [?|[reason Hparse]]; [done|]. rewrite Hparse. simpl.
    eexists. split_and!; [done|done|].
    intros ? ? _ [= <-]. done.
  - eexists. split_and!; [done|done|]. by intros.
Qed.

(** X13: when the provider fulfils its promise before the timeout, the loop
    pushes one tool message whose content is the flattened result and whose
    [tool_call_id] is the id of the call, and the result event carries the
    result's own [isError] flag ([false] when the flag is absent); the
    provider was called once, with the server id of the first catalog entry
    of that name, the tool name and the parsed arguments. *)
Theorem fulfilled_call_is_recorded ch tools toolCall s hist found args t
    result :
  heap s !! ch = Some hist ->
  List.find (fun t => String.eqb (name t) (fn_name (tc_function toolCall)))
    tools = Some found ->
  JSON_parse (fn_arguments (tc_function toolCall)) = inl args ->
  fst (executeTool (world s) (serverId found)
         (fn_name (tc_function toolCall)) args)
  = Settles t (Fulfilled result) ->
  (t < TOOL_EXECUTION_TIMEOUT)%N ->
  ∃ s' now,
    executeEach ch tools toolCall s = (Ok tt, s')
    ∧ heap s' =
        <[ch := hist ++ [{| role := tool;
                            content := formatToolResult result;
                            tool_calls := None;
                            tool_call_id := Some (tc_id toolCall);
                            timestamp := now |}]]> (heap s)
    ∧ emitted s' =
        emitted s
        ++ [EvToolExecutionStart (fn_name (tc_function toolCall))
              (tc_id toolCall);
            EvToolExecutionResult (fn_name (tc_function toolCall))
              (tc_id toolCall) (default false (isError result))]
    ∧ providerCalls (trace s') =
        providerCalls (trace s)
        ++ [(serverId found, fn_name (tc_function toolCall), args)].
Proof.
  intros Hhist Hfind Hparse Hanswer Hearly.
  unfold executeEach, try_catch, executeToolCallWithTimeout, executeToolCall,
    mbind, M_bind, yield, record, ask, await, push, mret, M_ret.
  simpl. rewrite Hfind, Hparse. simpl.
  destruct (executeTool _ _ _ _) as [p w'] eqn:Eanswer. simpl in *. subst p.
  rewrite timeoutPromise_eq. simpl.
  destruct (N.ltb_spec t TOOL_EXECUTION_TIMEOUT) as [_|Hlate]; [|lia].
  simpl. destruct (Date_now w') as [now w''] eqn:Enow. simpl.
  eexists _, now. split; [reflexivity|]. simpl. rewrite Hhist.
  split_and!; [done| |].
  - by rewrite <- app_assoc.
  - unfold providerCalls. rewrite !omap_app. simpl. by rewrite app_nil_r.
Qed.

(** ** Flattening a tool result *)

Lemma join_one (sep x : string) : String.concat sep [x] = x.
Proof. reflexivity. Qed.

Lemma join_cons (sep x y : string) (l : list string) :
  String.concat sep (x :: y :: l) = x +:+ sep +:+ String.concat sep (y :: l).
Proof. reflexivity. Qed.

Lemma join_app (sep : string) (l1 l2 : list string) :
  l1 ≠ [] -> l2 ≠ [] ->
  String.concat sep (l1 ++ l2)
  = String.concat sep l1 +:+ sep +:+ String.concat sep l2.
Proof.
  intros Hl1 Hl2. induction l1 as [|x [|y l1] IH]; [done| |].
  - destruct l2 as [|z l2]; [done|]. simpl app. by rewrite join_cons, join_one.
  - change ((x :: y :: l1) ++ l2) with (x :: y :: l1 ++ l2).
    rewrite !join_cons. change (y :: l1 ++ l2) with ((y :: l1) ++ l2).
    rewrite IH by done. by rewrite !append_assoc.
Qed.

Lemma join_empty (sep : string) (l : list string) :
  Forall (fun s => s ≠ "") l -> String.concat sep l = "" -> l = [].
Proof.
  destruct 1 as [|x l Hx _]; [done|]. destruct l as [|y l].
  - by rewrite join_one.
  - rewrite join_cons. destruct x; [done|]. by rewrite append_cons.
Qed.

Lemma nonempty_length (s : string) :
  (0 <? String.length s)%nat = true ↔ s ≠ "".
Proof. destruct s; simpl; [split; [done|by intros []]|split; done]. Qed.

(** X14: flattening a tool result.  No content gives the empty text; one
    item gives its text when it is a text item with a non-empty text,
    otherwise its rendered data when the data is truthy, otherwise nothing;
    and the text of two contents put one after the other is the two texts
    joined by a blank line, or just one of them when the other is empty.
    The [isError] flag plays no part. *)
Theorem formatToolResult_composes (a b : list (ContentItem any))
    (item : ContentItem any) (e ea eb : option bool) :
  formatToolResult {| result_content := []; isError := e |} = ""
  ∧ formatToolResult {| result_content := [item]; isError := e |}
    = match String.eqb (item_type item) "text", truthy (item_text item) with
      | true, Some text => text
      | _, _ =>
          match item_data item with
          | Some data => if any_truthy data then JSON_stringify data else ""
          | None => ""
          end
      end
  ∧ formatToolResult {| result_content := a ++ b; isError := e |}
    = (if String.eqb
            (formatToolResult {| result_content := a; isError := ea |}) ""
       then formatToolResult {| result_content := b; isError := eb |}
       else if String.eqb
                 (formatToolResult {| result_content := b; isError := eb |}) ""
       then formatToolResult {| result_content := a; isError := ea |}
       else formatToolResult {| result_content := a; isError := ea |}
            +:+ blankLine
            +:+ formatToolResult {| result_content := b; isError := eb |}).
Proof.
  unfold formatToolResult. cbn [result_content].
  set (piece := fun item : ContentItem any => _).
  set (kept := fun s : string => _).
  split_and!.
  - reflexivity.
  - cbn [map List.filter]. destruct (kept (piece item)) eqn:Ek.
    + by rewrite join_one.
    + change (String.concat blankLine [] = piece item). unfold kept in Ek.
      destruct (piece item); [done|discriminate Ek].
  - rewrite map_app, List.filter_app.
    assert (∀ items, Forall (fun s => s ≠ "") (List.filter kept (map piece items)))
      as Hne.
    { intros items. apply Forall_forall. intros x Hx.
      apply list_elem_of_In, filter_In in Hx as [_ Hx].
      by apply nonempty_length in Hx. }
    pose proof (join_empty blankLine _ (Hne a)) as Ha.
    pose proof (join_empty blankLine _ (Hne b)) as Hb.
    destruct (List.filter kept (map piece a)) as [|x pa] eqn:Epa.
    { reflexivity. }
    destruct (String.eqb_spec (String.concat blankLine (x :: pa)) "")
      as [Hempty|_]; [by specialize (Ha Hempty)|].
    destruct (List.filter kept (map piece b)) as [|y pb] eqn:Epb.
    { by rewrite app_nil_r. }
    destruct (String.eqb_spec (String.concat blankLine (y :: pb)) "")
      as [Hempty|_]; [by specialize (Hb Hempty)|].
    by apply join_app.
Qed.

(** ** Collecting a stream *)

Lemma irrelevant_chunk c :
  relevant c = false -> contentEvent c = None ∧ toolCallEvent c = None.
Proof.
  unfold relevant. intros [Hc Ht]%orb_false_iff.
  apply bool_decide_eq_false in Hc, Ht. split.
  - destruct (contentEvent c); [|done]. exfalso. apply Hc. by eexists.
  - destruct (toolCallEvent c); [|done]. exfalso. apply Ht. by eexists.
Qed.

Lemma streamTexts_cons c chunks :
  streamTexts (c :: chunks)
  = match contentEvent c with
    | Some text => text :: streamTexts chunks
    | None => streamTexts chunks
    end.
Proof. reflexivity. Qed.

Lemma streamDeltas_cons c chunks :
  streamDeltas (c :: chunks)
  = default [] (toolCallEvent c) ++ streamDeltas chunks.
Proof. reflexivity. Qed.

Lemma toolCallObserved_cons c chunks :
  toolCallObserved (c :: chunks)
  = bool_decide (is_Some (toolCallEvent c)) || toolCallObserved chunks.
Proof. reflexivity. Qed.

Lemma relevant_texts chunks :
  streamTexts (List.filter relevant chunks) = streamTexts chunks.
Proof.
  induction chunks as [|c chunks IH]; [done|]. cbn [List.filter].
  destruct (relevant c) eqn:Er.
  - by rewrite !streamTexts_cons, IH.
  - apply irrelevant_chunk in Er as [Hc _]. by rewrite streamTexts_cons, Hc.
Qed.

Lemma relevant_deltas chunks :
  streamDeltas (List.filter relevant chunks) = streamDeltas chunks.
Proof.
  induction chunks as [|c chunks IH]; [done|]. cbn [List.filter].
  destruct (relevant c) eqn:Er.
  - by rewrite !streamDeltas_cons, IH.
  - apply irrelevant_chunk in Er as [_ Ht]. by rewrite streamDeltas_cons, Ht.
Qed.

Lemma relevant_observed chunks :
  toolCallObserved (List.filter relevant chunks) = toolCallObserved chunks.
Proof.
  induction chunks as [|c chunks IH]; [done|]. cbn [List.filter].
  destruct (relevant c) eqn:Er.
  - by rewrite !toolCallObserved_cons, IH.
  - apply irrelevant_chunk in Er as [_ Ht].
    by rewrite toolCallObserved_cons, Ht.
Qed.

(** X15: collecting a stream acts on its text events and its tool-call
    events only.  Every other chunk (a chunk of type [done] or [error], a
    content chunk without text, a tool-call chunk without fragments) is
    skipped without any effect: dropping these chunks from the stream
    changes neither the events emitted nor the buffers, and in particular a
    chunk of type [error] does not abort the turn. *)
Theorem irrelevant_chunks_are_skipped chunks b s :
  for_await chunks b s = for_await (List.filter relevant chunks) b s
  ∧ ∀ chunk,
      chunk_type chunk = type_done ∨ chunk_type chunk = type_error
      ∨ (chunk_type chunk = type_content ∧ truthy (chunk_content chunk) = None)
      ∨ (chunk_type chunk = type_tool_call ∧ chunk_tool_call chunk = None) ->
      relevant chunk = false.
Proof.
  split.
  - by rewrite !for_await_eq, relevant_texts, relevant_deltas,
      relevant_observed.
  - intros chunk. unfold relevant, contentEvent, toolCallEvent.
    intros [->|[->|[[-> ->]|[-> ->]]]]; simpl; done.
Qed.

(** X16: what a model turn stores is what it streamed.  Collecting a
    stream that comes to an end emits content events only and pushes
    nothing, whether the stream is done or throws; the events emitted
    before a failure stay emitted.  When the turn returns, the content of
    the assistant message is the concatenation of the texts of the content
    events it emitted, in order, and the message carries the completed
    calls, or no [tool_calls] field when there are none. *)
Theorem stored_content_is_streamed_content ch tools s outcome s' :
  accumulateStreamingResponse ch tools s = (outcome, s') ->
  ∃ texts,
    emitted s' = emitted s ++ map EvContent texts
    ∧ heap s' = heap s
    ∧ ∀ response,
        outcome = Ok response ->
        role (assistantMessage response) = assistant
        ∧ content (assistantMessage response) = String.concat "" texts
        ∧ tool_calls (assistantMessage response)
          = match toolCalls response with
            | [] => None
            | calls => Some calls
            end.
Proof.
  rewrite accumulateStreamingResponse_eq.
  destruct (failure _); intros [= <- <-]; eexists; simpl;
    (split_and!; [reflexivity|reflexivity|]);
    intros response [= <-]; done.
Qed.

End More.

(** * The further properties at scripted runs *)

Example twoTexts_flattened :
  @formatToolResult Example.oneCall MoreExamples.twoTexts
  = "Steps: 42" +:+ blankLine +:+ "{ distance: 3 }".
Proof. reflexivity. Qed.

Example broken_events :
  emitted (snd (@run MoreExamples.broken Example.start Example.store
                  Example.messages Example.tools))
  = [EvToolExecutionStart "get_steps" "call_1";
     EvToolExecutionResult "get_steps" "call_1" false;
     EvContent "Let me "; EvError "Cannot reach LLM endpoint"; EvDone].
Proof. reflexivity. Qed.

(** X3 at ten tool turns in a row, with fuel for twenty-five passes. *)
Lemma X3_ten_passes_with_more_fuel :
  ∃ continueLoop s,
    @while_loop Example.tenToolTurns 25 (fresh (dom Example.store))
      Example.tools true 0
      (@Build_St Example.tenToolTurns Example.start
         (<[fresh (dom Example.store) := [Example.hello]]> Example.store)
         [] [])
    = (Ok (continueLoop, 10), s)
    ∧ length (modelTurns (trace s)) = 10%nat.
Proof.
  destruct (@run_model_invocations_bounded Example.tenToolTurns Example.start
              Example.store Example.messages Example.tools 25)
    as [(continueLoop & iteration & s & Hrun & Hcount & _) _].
  - unfold MAX_ITERATIONS. simpl. lia.
  - assert (iteration = 10) as Hten.
    { pose proof Hrun as Hten. vm_compute in Hten.
      by injection Hten as _ <- _. }
    exists continueLoop, s. rewrite <- Hten at 1. split; [exact Hrun|]. lia.
Defined.

(** X4 at the run with one tool call: a second model turn follows the
    first. *)
Lemma X4_second_turn_after_tools :
  failure (Example.toolTurn "{}") = None
  ∧ toolCallObserved (chunks (Example.toolTurn "{}")) = true
  ∧ completedCalls (Example.toolTurn "{}") ≠ [].
Proof.
  apply (@model_invoked_again_only_after_tools Example.oneCall Example.start
           Example.store Example.messages Example.tools 0%nat
           (Example.toolTurn "{}")).
  - reflexivity.
  - vm_compute. by eexists.
Defined.

(** X5 at a run whose second stream breaks after one text chunk. *)
Lemma X5_broken_second_turn :
  length (modelTurns (trace (snd (@run MoreExamples.broken Example.start
            Example.store Example.messages Example.tools)))) = 2%nat.
Proof.
  apply (@stream_failure_ends_run MoreExamples.broken Example.start
           Example.store Example.messages Example.tools 1%nat
           MoreExamples.brokenTurn "Cannot reach LLM endpoint");
    reflexivity.
Defined.

(** X12 at a call to a tool that the catalog does not have. *)
Lemma X12_unknown_tool :
  ∃ message,
    fst (@executeToolCallWithTimeout Example.oneCall MoreExamples.getSleep
           Example.tools
           (@initial Example.oneCall Example.start Example.store))
    = Ok (Settles 0 (Rejected message))
    ∧ message = "Tool 'get_sleep' not found".
Proof.
  destruct (@rejected_before_provider Example.oneCall Example.tools
              MoreExamples.getSleep
              (@initial Example.oneCall Example.start Example.store))
    as (message & Hrun & Hmissing & _).
  - left. reflexivity.
  - exists message. split; [by rewrite Hrun|]. apply Hmissing. reflexivity.
Defined.

(** X13 at a call that the provider answers after 5 ms. *)
Lemma X13_quick_answer :
  ∃ s' now,
    @executeEach Example.oneCall Example.messages Example.tools
      (Example.getSteps "{}")
      (@initial Example.oneCall Example.start Example.store)
    = (Ok tt, s')
    ∧ heap s' =
        <[Example.messages :=
            [Example.hello]
            ++ [{| role := tool; content := "42"; tool_calls := None;
                   tool_call_id := Some "call_1"; timestamp := now |}]]>
          Example.store.
Proof.
  destruct (@fulfilled_call_is_recorded Example.oneCall Example.messages
              Example.tools (Example.getSteps "{}")
              (@initial Example.oneCall Example.start Example.store)
              [Example.hello]
              {| name := "get_steps"; description := "Daily steps";
                 inputSchema := "{}"; serverId := "garmin" |}
              "{}" 5%N Example.steps eq_refl eq_refl eq_refl eq_refl eq_refl)
    as (s' & now & Hrun & Hheap & _).
  exists s', now. split; [exact Hrun|exact Hheap].
Defined.

(** X16 at the first turn of the run that answers at once. *)
Lemma X16_answer_streamed :
  ∃ texts,
    emitted (snd (@accumulateStreamingResponse Example.answerAtOnce
                    Example.messages Example.tools
                    (@initial Example.answerAtOnce Example.start
                       Example.store)))
    = map EvContent texts.
Proof.
  destruct (@stored_content_is_streamed_content Example.answerAtOnce
              Example.messages Example.tools
              (@initial Example.answerAtOnce Example.start Example.store)
              _ _ eq_refl)
    as (texts & Hev & _).
  exists texts. exact Hev.
Defined.

(** X10 at the run with one tool call: the second model call is given the
    caller's message, the assistant message and what follows it. *)
Lemma X10_second_call_sees_reply :
  ∃ a replies,
    modelHistories (trace (snd (@run Example.oneCall Example.start
                                  Example.store Example.messages
                                  Example.tools))) !! 1%nat
    = Some ([Example.hello] ++ a :: replies)
    ∧ role a = assistant
    ∧ Forall2 answers (completedCalls (Example.toolTurn "{}")) replies.
Proof.
  destruct (modelHistories
              (trace (snd (@run Example.oneCall Example.start Example.store
                             Example.messages Example.tools))) !! 1%nat)
    as [history'|] eqn:Hsecond; [|vm_compute in Hsecond; discriminate].
  destruct (proj2 (proj2 (@model_sees_growing_transcript Example.oneCall
                            Example.start Example.store Example.messages
                            Example.tools))
              0%nat (Example.toolTurn "{}") [Example.hello] history')
    as (a & replies & Hnext & Hrole & _ & Hreplies).
  - vm_compute. reflexivity.
  - vm_compute. reflexivity.
  - exact Hsecond.
  - exists a, replies. rewrite Hnext.
    split; [reflexivity|split; [exact Hrole|exact Hreplies]].
Defined.

(** X15 at a chunk of type [error]: it is skipped. *)
Lemma X15_error_chunk_skipped :
  relevant MoreExamples.errorChunk = false
  ∧ @for_await Example.oneCall [MoreExamples.errorChunk] initialBuffers
      (@initial Example.oneCall Example.start Example.store)
    = (Ok initialBuffers,
       @initial Example.oneCall Example.start Example.store).
Proof.
  destruct (@irrelevant_chunks_are_skipped Example.oneCall
              [MoreExamples.errorChunk] initialBuffers
              (@initial Example.oneCall Example.start Example.store))
    as [Hskip Hwhich].
  split.
  - apply Hwhich. right. left. reflexivity.
  - rewrite Hskip. reflexivity.
Defined.
